(** * Solvr: the Python SDK client and the Hetzner provisioner

    A shallow embedding of
      - [packages/sdk-python/solvr/types.py] and [client.py]: the typed
        records, the response parsers, the query builder of [search] and the
        bounded retry loop of [Solvr._request];
      - [infra/provision.py]: the utilities, the [provision], [destroy],
        [list] and [status] commands and [main], over an explicit model of
        the provider account, the local files and the console.

    Python values that come out of [json.loads] are kept dynamically typed
    ([json]); exceptions are values of [exn] and a computation that may raise
    lives in [res].  The network, the clock and the terminal are explicit
    state.

    What is taken from the libraries the code calls:
      - [requests]: [Response.ok] is false exactly for 400 <= status < 600;
        [Response.json()] raises on a body that is not JSON, and on a
        response that is [ok] that exception is a [RequestException]
        (requests 2.27 and later); [requests.request] raises [ValueError],
        which is no [RequestException], for a timeout that is not positive,
        before it connects; the requests the client builds are taken to be
        well formed otherwise (a URL with a scheme and a host);
      - Python arithmetic: [0.1 * n] converts the integer [n] to a double,
        which raises [OverflowError] from [2 ** 1024] on; a double times a
        power of two is exact, so delays are exact rationals;
      - the provider API and the external programs ([ssh-keygen], [ssh])
        always answer; what they answer is a parameter of the model;
      - text is kept as its UTF-8 bytes: a [string] is the encoding of a
        Python [str], and a local file holds the text [read_text] gives. *)

From Stdlib Require Import ZArith QArith Lia Ascii.
From stdpp Require Import base strings gmap list pretty.

#[local] Set Warnings "-register-all".
#[local] Open Scope Z_scope.

(** ** Python values and exceptions *)

(** What [json.loads] produces: [None], [bool], [int], [float], [str],
    [list] and [dict] with string keys. *)
Inductive json :=
| JNull
| JBool (b : bool)
| JInt (n : Z)
| JFloat (q : Q)
| JStr (s : string)
| JList (l : list json)
| JDict (d : gmap string json).

(** The subclasses of [requests.exceptions.RequestException] that matter to
    the client: a refused connection, a timeout, and (requests 2.27 and later)
    the error [Response.json()] raises on a body that is not JSON. *)
Inductive request_exception :=
| ConnectionError
| Timeout
| JSONDecodeError.

Inductive exn :=
| SolvrError (message : json) (status : Z) (code : json)
| RequestException (e : request_exception)
| KeyError (key : string)
| TypeError
| AttributeError
| OverflowError
| ValueError (msg : string)
| EOFError
| FileNotFoundError (path : string)
| Exception (msg : string).

(** A computation that returns or raises. *)
Inductive res (A : Type) :=
| Ok (a : A)
| Raise (e : exn).
Arguments Ok {A} a.
Arguments Raise {A} e.

#[global] Instance res_ret : MRet res := λ A, @Ok A.
#[global] Instance res_bind : MBind res := λ A B f m,
  match m with Ok a => f a | Raise e => Raise e end.
#[global] Instance res_fmap : FMap res := λ A B f m,
  match m with Ok a => Ok (f a) | Raise e => Raise e end.

(** [[f(x) for x in l]]: elements are evaluated left to right and the first
    exception wins. *)
Fixpoint comprehension {A B} (f : A → res B) (l : list A) : res (list B) :=
  match l with
  | [] => Ok []
  | x :: l' => y ← f x; ys ← comprehension f l'; Ok (y :: ys)
  end.

(** Truth value of an object, as [if x:] and [x or y] test it. *)
Definition truthy (v : json) : bool :=
  match v with
  | JNull => false
  | JBool b => b
  | JInt n => negb (n =? 0)
  | JFloat q => negb (Qnum q =? 0)
  | JStr s => negb (String.eqb s "")
  | JList l => negb (bool_decide (length l = 0%nat))
  | JDict d => negb (bool_decide (size d = 0%nat))
  end.

(** [v[k]] with a string key: [KeyError] on a dict without the key,
    [TypeError] on anything that is not a dict. *)
Definition subscript (v : json) (k : string) : res json :=
  match v with
  | JDict d => match d !! k with Some x => Ok x | None => Raise (KeyError k) end
  | _ => Raise TypeError
  end.

(** [v.get(k, dflt)]: only dicts have [get]. *)
Definition get_default (v : json) (k : string) (dflt : json) : res json :=
  match v with
  | JDict d => Ok (default dflt (d !! k))
  | _ => Raise AttributeError
  end.

(** [v.get(k)], the default being [None]. *)
Definition get (v : json) (k : string) : res json := get_default v k JNull.

(** [for x in v]: a list yields its elements, a dict its keys, a string its
    characters; nothing else is iterable. *)
Definition iter (v : json) : res (list json) :=
  match v with
  | JList l => Ok l
  | JDict d => Ok (JStr <$> (map_to_list d).*1)
  | JStr s => Ok ((λ c, JStr (String c "")) <$> String.list_ascii_of_string s)
  | _ => Raise TypeError
  end.

(** [str(n)] for an [int]. *)
Definition str_of_int (n : Z) : string := pretty n.

(** ** types.py *)

Inductive PostType := PROBLEM | QUESTION | IDEA.
Inductive PostStatus := OPEN | ACTIVE | SOLVED | STUCK | ANSWERED.
Inductive VoteDirection := UP | DOWN.

(** [.value] and [str()] of the three [(str, Enum)] classes.  [str()] of a
    member of a mixed-in enum is its qualified name, not its value. *)
Definition PostType_value (t : PostType) : string :=
  match t with PROBLEM => "problem" | QUESTION => "question" | IDEA => "idea" end.
Definition PostType_str (t : PostType) : string :=
  match t with
  | PROBLEM => "PostType.PROBLEM" | QUESTION => "PostType.QUESTION"
  | IDEA => "PostType.IDEA"
  end.
Definition PostStatus_value (s : PostStatus) : string :=
  match s with
  | OPEN => "open" | ACTIVE => "active" | SOLVED => "solved"
  | STUCK => "stuck" | ANSWERED => "answered"
  end.
Definition VoteDirection_value (d : VoteDirection) : string :=
  match d with UP => "up" | DOWN => "down" end.

(** An argument typed [Union[str, E]]. *)
Inductive str_or (E : Type) :=
| Str (s : string)
| Enum (e : E).
Arguments Str {E} s.
Arguments Enum {E} e.

(** The dataclasses.  Nothing checks the annotations at run time, so a field
    filled from a response holds whatever JSON value was there; [None] is
    [JNull]. *)
Module Author.
Record t := mk {
  id : json; type : json; display_name : json; avatar_url : json }.
End Author.

Module PaginationMeta.
Record t := mk { total : json; page : json; per_page : json; has_more : json }.
End PaginationMeta.

Module SearchResult.
Record t := mk {
  id : json; type : json; title : json; snippet : json; score : json;
  status : json; votes : json; author : option Author.t; tags : json;
  created_at : json }.
End SearchResult.

Module SearchResponse.
Record t := mk {
  data : list SearchResult.t; meta : PaginationMeta.t; took_ms : json }.
End SearchResponse.

Module Approach.
Record t := mk {
  id : json; post_id : json; angle : json; content : json; status : json;
  upvotes : json; downvotes : json; created_at : json; updated_at : json;
  method : json; assumptions : json; author : option Author.t }.
End Approach.

Module Answer.
Record t := mk {
  id : json; post_id : json; content : json; is_accepted : json;
  upvotes : json; downvotes : json; created_at : json; updated_at : json;
  author : option Author.t }.
End Answer.

Module Comment.
Record t := mk {
  id : json; target_type : json; target_id : json; content : json;
  created_at : json; author : option Author.t }.
End Comment.

Module Post.
Record t := mk {
  id : json; type : json; title : json; description : json; status : json;
  upvotes : json; downvotes : json; view_count : json; created_at : json;
  updated_at : json; tags : json; author : option Author.t;
  success_criteria : json; accepted_answer_id : json;
  approaches : option (list Approach.t); answers : option (list Answer.t);
  comments : option (list Comment.t) }.
End Post.

Module VoteResult.
Record t := mk { upvotes : json; downvotes : json; user_vote : json }.
End VoteResult.

(** ** client.py *)

Module Client.

Definition DEFAULT_BASE_URL : string := "https://api.solvr.dev".
Definition DEFAULT_TIMEOUT : Z := 30.
Definition DEFAULT_RETRIES : Z := 3.

(** The attributes [__init__] stores. *)
Record Solvr := {
  _api_key : string;
  _base_url : string;
  _timeout : Z;
  _retries : Z;
  _debug : bool }.

(** [s.rstrip("/")]. *)
Fixpoint rstrip_slash (s : string) : string :=
  match s with
  | EmptyString => EmptyString
  | String c s' =>
      match rstrip_slash s' with
      | EmptyString => if Ascii.eqb c "/"%char then EmptyString else String c EmptyString
      | r => String c r
      end
  end.

(** [Solvr.__init__]: the only validation is that the key is not empty;
    [retries] is stored as given. *)
Definition __init__ (api_key base_url : string) (timeout retries : Z)
    (debug : bool) : res Solvr :=
  if String.eqb api_key "" then Raise (ValueError "API key is required")
  else Ok {| _api_key := api_key; _base_url := rstrip_slash base_url;
             _timeout := timeout; _retries := retries; _debug := debug |}.

(** *** Response parsers *)

Definition _parse_author (data : json) : res (option Author.t) :=
  if negb (truthy data) then Ok None
  else
    id ← subscript data "id";
    type ← subscript data "type";
    display_name ← subscript data "display_name";
    avatar_url ← get data "avatar_url";
    Ok (Some (Author.mk id type display_name avatar_url)).

(** The expression
    [self._parse_author(r.get("author")) if r.get("author") else None]
    that every record with an author uses. *)
Definition author_of (r : json) : res (option Author.t) :=
  c ← get r "author";
  if truthy c then a ← get r "author"; _parse_author a else Ok None.

Definition _parse_approach (data : json) : res Approach.t :=
  id ← subscript data "id";
  post_id ← get_default data "post_id" (JStr "");
  angle ← subscript data "angle";
  content ← get_default data "content" (JStr "");
  status ← get_default data "status" (JStr "proposed");
  upvotes ← get_default data "upvotes" (JInt 0);
  downvotes ← get_default data "downvotes" (JInt 0);
  created_at ← get_default data "created_at" (JStr "");
  updated_at ← get_default data "updated_at" (JStr "");
  method ← get data "method";
  assumptions ← get data "assumptions";
  author ← author_of data;
  Ok (Approach.mk id post_id angle content status upvotes downvotes
        created_at updated_at method assumptions author).

Definition _parse_answer (data : json) : res Answer.t :=
  id ← subscript data "id";
  post_id ← get_default data "post_id" (JStr "");
  content ← subscript data "content";
  is_accepted ← get_default data "is_accepted" (JBool false);
  upvotes ← get_default data "upvotes" (JInt 0);
  downvotes ← get_default data "downvotes" (JInt 0);
  created_at ← get_default data "created_at" (JStr "");
  updated_at ← get_default data "updated_at" (JStr "");
  author ← author_of data;
  Ok (Answer.mk id post_id content is_accepted upvotes downvotes
        created_at updated_at author).

(** The expression
    [[parse(a) for a in data.get(key, [])] if data.get(key) else None]. *)
Definition parsed_list {A} (parse : json → res A) (data : json)
    (key : string) : res (option (list A)) :=
  c ← get data key;
  if truthy c then
    v ← get_default data key (JList []);
    items ← iter v;
    Some <$> comprehension parse items
  else Ok None.

(** [comments] is not passed to the constructor, so the dataclass default
    [None] stays. *)
Definition _parse_post (data : json) : res Post.t :=
  id ← subscript data "id";
  type ← subscript data "type";
  title ← subscript data "title";
  description ← subscript data "description";
  status ← get_default data "status" (JStr "open");
  upvotes ← get_default data "upvotes" (JInt 0);
  downvotes ← get_default data "downvotes" (JInt 0);
  view_count ← get_default data "view_count" (JInt 0);
  created_at ← get_default data "created_at" (JStr "");
  updated_at ← get_default data "updated_at" (JStr "");
  tags ← get data "tags";
  author ← author_of data;
  success_criteria ← get data "success_criteria";
  accepted_answer_id ← get data "accepted_answer_id";
  approaches ← parsed_list _parse_approach data "approaches";
  answers ← parsed_list _parse_answer data "answers";
  Ok (Post.mk id type title description status upvotes downvotes view_count
        created_at updated_at tags author success_criteria
        accepted_answer_id approaches answers None).

Definition parse_search_result (r : json) : res SearchResult.t :=
  id ← subscript r "id";
  type ← subscript r "type";
  title ← subscript r "title";
  snippet ← get r "snippet";
  score ← get r "score";
  status ← get r "status";
  votes ← get r "votes";
  author ← author_of r;
  tags ← get r "tags";
  created_at ← get r "created_at";
  Ok (SearchResult.mk id type title snippet score status votes author tags
        created_at).

Definition _parse_search_response (data : json) : res SearchResponse.t :=
  rows ← get_default data "data" (JList []);
  items ← iter rows;
  results ← comprehension parse_search_result items;
  meta ← get_default data "meta" (JDict ∅);
  total ← get_default meta "total" (JInt 0);
  page ← get_default meta "page" (JInt 1);
  per_page ← get_default meta "per_page" (JInt 10);
  has_more ← get meta "has_more";
  took_ms ← get meta "took_ms";
  Ok (SearchResponse.mk results
        (PaginationMeta.mk total page per_page has_more) took_ms).

(** *** The network, the clock and the log *)

(** The arguments of one [requests.request] call. *)
Record http_request := {
  req_method : string;
  req_url : string;
  req_headers : list (string * string);
  req_json : option json;
  req_timeout : Z }.

(** What the client reads from a [requests.Response]: [status_code], and
    the value of [json()], [None] standing for a body that does not parse
    ([json()] raises). *)
Record Response := {
  status_code : Z;
  body : option json }.

(** [Response.ok]: true unless [raise_for_status()] would raise, which it
    does for 400 <= status < 600. *)
Definition ok (r : Response) : bool :=
  negb ((400 <=? status_code r) && (status_code r <? 600)).

(** A call whose arguments [requests.request] accepts either yields a
    response or raises a [RequestException]. *)
Inductive reply :=
| Replied (response : Response)
| Failed (e : request_exception).

(** Observable effects of the client: the calls of [requests.request] with
    their arguments, the arguments of [time.sleep], the lines given to
    [logger.debug]. *)
Record io := {
  sent : list http_request;
  slept : list Q;
  logged : list string }.

Definition time_sleep (d : Q) (w : io) : io :=
  {| sent := sent w; slept := slept w ++ [d]; logged := logged w |}.

Definition logger_debug (line : string) (w : io) : io :=
  {| sent := sent w; slept := slept w; logged := logged w ++ [line] |}.

(** *** Back-off delay *)

(** The [float] literal [0.1]: the double nearest to one tenth. *)
Definition float_0_1 : Q := 3602879701896397 # 36028797018963968.

(** Conversion of the [int] operand of [float * int].  It raises
    [OverflowError] from [2 ** 1024] on; below, a power of two converts
    exactly, and powers of two are the only integers converted here. *)
Definition float_of_int (n : Z) : res Q :=
  if n <? 2 ^ 1024 then Ok (inject_Z n) else Raise OverflowError.

(** [min(x, y)]: the second argument wins only when strictly smaller. *)
Definition min2 (x y : Q) : Q := if Qle_bool x y then x else y.

(** [min(0.1 * (2 ** (attempts - 1)), 5)]. *)
Definition backoff (attempts : Z) : res Q :=
  p ← float_of_int (2 ^ (attempts - 1));
  Ok (min2 (float_0_1 * p)%Q (inject_Z 5)).

(** *** [_request] *)

(** The one argument of the client's calls that [requests.request] can
    refuse: a timeout that is not positive raises this [ValueError] (from
    [urllib3.util.Timeout], when the adapter is about to send), whatever
    the remote side would answer. *)
Definition timeout_refused (timeout : Z) : exn :=
  ValueError ("Attempted to set connect timeout to " +:+ str_of_int timeout
              +:+ ", but the timeout cannot be set to a value less than or"
              +:+ " equal to 0.").

(** Lines 320-328: message and code of the error a failed response
    carries.  Any exception while reading the body gives the generic
    message and no code. *)
Definition error_body (response : Response) : json * json :=
  let status := status_code response in
  let generic := JStr ("API error: " +:+ str_of_int status) in
  match body response with
  | None => (generic, JNull)
  | Some error_data =>
      match get_default error_data "error" (JDict ∅) with
      | Raise _ => (generic, JNull)
      | Ok error_info =>
          match get_default error_info "message" generic with
          | Raise _ => (generic, JNull)
          | Ok message =>
              match get error_info "code" with
              | Raise _ => (generic, JNull)
              | Ok code => (message, code)
              end
          end
      end
  end.

(** What one pass through the body of the [while] decides. *)
Inductive step :=
| Return_ (j : json)
| Raise_ (e : exn)
| Continue (last_error : exn) (delay : Q).

(** The shared tail of both retry paths: sleep and go on while attempts are
    left, otherwise raise the error at hand.  An exception while computing
    the delay is caught by neither [except] clause. *)
Definition retry (self : Solvr) (attempts : Z) (e : exn) : step :=
  if attempts <? _retries self then
    match backoff attempts with
    | Ok delay => Continue e delay
    | Raise e' => Raise_ e'
    end
  else Raise_ e.

(** Lines 317-356, [attempts] being already incremented. *)
Definition loop_body (self : Solvr) (attempts : Z) (rep : reply) : step :=
  match rep with
  | Replied response =>
      if negb (ok response) then
        let status := status_code response in
        let '(message, code) := error_body response in
        if (400 <=? status) && (status <? 500) then
          Raise_ (SolvrError message status code)
        else retry self attempts (SolvrError message status code)
      else
        match body response with
        | Some j => Return_ j
        | None => retry self attempts (RequestException JSONDecodeError)
        end
  | Failed e => retry self attempts (RequestException e)
  end.

Section Network.

(** The remote side: the reply to the [n]-th call ever made, which may
    depend on the request. *)
Context (server : nat → http_request → reply).

(** Lines 309-315: the call raises [ValueError] when the timeout is not
    positive, and otherwise gives what the remote side replies. *)
Definition requests_request (req : http_request) (w : io)
    : res reply * io :=
  (if req_timeout req <=? 0 then Raise (timeout_refused (req_timeout req))
   else Ok (server (length (sent w)) req),
   {| sent := sent w ++ [req]; slept := slept w; logged := logged w |}).

(** The [while attempts < self._retries] loop.  [fuel] bounds the number
    of passes; [None] means it ran out.  An exception of the call that is
    not a [RequestException] is caught by neither [except] clause. *)
Fixpoint request_loop (fuel : nat) (self : Solvr) (req : http_request)
    (last_error : option exn) (attempts : Z) (w : io)
    : option (res json * io) :=
  if attempts <? _retries self then
    match fuel with
    | O => None
    | S fuel' =>
        let attempts := attempts + 1 in
        let w :=
          if _debug self
          then logger_debug (req_method req +:+ " " +:+ req_url req) w
          else w in
        let '(rep, w) := requests_request req w in
        match rep with
        | Raise e => Some (Raise e, w)
        | Ok rep =>
            match loop_body self attempts rep with
            | Return_ j => Some (Ok j, w)
            | Raise_ e => Some (Raise e, w)
            | Continue e delay =>
                request_loop fuel' self req (Some e) attempts
                  (time_sleep delay w)
            end
        end
    end
  else
    Some (Raise (default (Exception "Request failed after retries")
                   last_error), w).

Definition build_request (self : Solvr) (method endpoint : string)
    (payload : option json) : http_request :=
  {| req_method := method;
     req_url := _base_url self +:+ endpoint;
     req_headers := [("Authorization", "Bearer " +:+ _api_key self);
                     ("Content-Type", "application/json")];
     req_json := payload;
     req_timeout := _timeout self |}.

(** Every pass increments [attempts], so [_retries] passes suffice. *)
Definition _request (self : Solvr) (method endpoint : string)
    (payload : option json) (w : io) : option (res json * io) :=
  request_loop (Z.to_nat (_retries self)) self
    (build_request self method endpoint payload) None 0 w.

End Network.

(** *** [urllib.parse.urlencode] *)

(** The characters [quote] never escapes: letters, digits and [_.-~]. *)
Definition unreserved (c : ascii) : bool :=
  let n := N_of_ascii c in
  ((48 <=? n) && (n <=? 57) || (65 <=? n) && (n <=? 90)
   || (97 <=? n) && (n <=? 122)
   || (n =? 95) || (n =? 46) || (n =? 45) || (n =? 126))%N.

Definition hex_digit (n : N) : ascii :=
  ascii_of_N (if (n <? 10)%N then 48 + n else 55 + n)%N.

(** [quote_plus]: a space becomes [+], any other byte that is not
    unreserved becomes [%XX] in upper-case hexadecimal. *)
Fixpoint quote_plus (s : string) : string :=
  match s with
  | EmptyString => EmptyString
  | String c s' =>
      if unreserved c then String c (quote_plus s')
      else if Ascii.eqb c " "%char then String "+"%char (quote_plus s')
      else
        let n := N_of_ascii c in
        String "%"%char
          (String (hex_digit (n / 16)%N)
             (String (hex_digit (n mod 16)%N) (quote_plus s')))
  end.

(** Values of the query dictionary: strings and integers. *)
Inductive param :=
| PStr (s : string)
| PInt (n : Z).

Definition param_str (v : param) : string :=
  match v with PStr s => s | PInt n => str_of_int n end.

Fixpoint join (sep : string) (l : list string) : string :=
  match l with
  | [] => ""
  | [x] => x
  | x :: l' => x +:+ sep +:+ join sep l'
  end.

(** [urlencode(params)]: the items in insertion order. *)
Definition urlencode (params : list (string * param)) : string :=
  join "&" ((λ kv, quote_plus kv.1 +:+ "=" +:+ quote_plus (param_str kv.2))
              <$> params).

(** *** Public methods *)

(** [if type and str(type) != "all"] and the value then sent. *)
Definition type_filter (type : option (str_or PostType)) : option string :=
  match type with
  | None => None
  | Some (Str s) =>
      if negb (String.eqb s "") && negb (String.eqb s "all") then Some s
      else None
  | Some (Enum e) =>
      if negb (String.eqb (PostType_value e) "")
         && negb (String.eqb (PostType_str e) "all")
      then Some (PostType_value e) else None
  end.

Definition status_filter (status : option (str_or PostStatus)) : option string :=
  match status with
  | None => None
  | Some (Str s) => if negb (String.eqb s "") then Some s else None
  | Some (Enum e) =>
      if negb (String.eqb (PostStatus_value e) "")
      then Some (PostStatus_value e) else None
  end.

(** [if n:] for an [Optional[int]]. *)
Definition nonzero (n : option Z) : option Z :=
  match n with
  | Some k => if k =? 0 then None else Some k
  | None => None
  end.

(** Lines 110-119: the dictionary [search] builds, key by key. *)
Definition search_params (query : string) (type : option (str_or PostType))
    (status : option (str_or PostStatus)) (limit page : option Z)
    : list (string * param) :=
  [("q", PStr query)]
  ++ from_option (λ t, [("type", PStr t)]) [] (type_filter type)
  ++ from_option (λ s, [("status", PStr s)]) [] (status_filter status)
  ++ from_option (λ n, [("per_page", PInt n)]) [] (nonzero limit)
  ++ from_option (λ n, [("page", PInt n)]) [] (nonzero page).

Section Methods.

Context (server : nat → http_request → reply).

(** [data = self._request(...); return parse(data)]. *)
Definition request_then {A} (parse : json → res A) (self : Solvr)
    (method endpoint : string) (payload : option json) (w : io)
    : option (res A * io) :=
  run ← _request server self method endpoint payload w;
  Some (run.1 ≫= parse, run.2).

Definition search (self : Solvr) (query : string)
    (type : option (str_or PostType)) (status : option (str_or PostStatus))
    (limit page : option Z) : io → option (res SearchResponse.t * io) :=
  request_then _parse_search_response self "GET"
    ("/v1/search?" +:+ urlencode (search_params query type status limit page))
    None.

(** [Solvr.get], renamed so as not to hide [dict.get] above. *)
Definition get_post (self : Solvr) (id : string)
    (include : option (list string)) : io → option (res Post.t * io) :=
  let endpoint := "/v1/posts/" +:+ id in
  let endpoint :=
    match include with
    | Some (x :: l) => endpoint +:+ "?include=" +:+ join "," (x :: l)
    | _ => endpoint
    end in
  request_then (λ data, d ← subscript data "data"; _parse_post d)
    self "GET" endpoint None.

Definition str_list (l : list string) : json := JList (JStr <$> l).

(** [if l:] for an [Optional[List[str]]]: set the key when the list is
    not empty. *)
Definition set_list (key : string) (l : option (list string))
    (body : gmap string json) : gmap string json :=
  match l with
  | Some (x :: l') => <[key := str_list (x :: l')]> body
  | _ => body
  end.

Definition set_str (key : string) (s : option string)
    (body : gmap string json) : gmap string json :=
  match s with
  | Some v => if String.eqb v "" then body else <[key := JStr v]> body
  | None => body
  end.

Definition post (self : Solvr) (type : str_or PostType)
    (title description : string) (tags success_criteria : option (list string))
    : io → option (res Post.t * io) :=
  let type_str := match type with Str s => s | Enum e => PostType_value e end in
  let body : gmap string json :=
    {[ "type" := JStr type_str; "title" := JStr title;
       "description" := JStr description ]} in
  let body := set_list "tags" tags body in
  let body := set_list "success_criteria" success_criteria body in
  request_then (λ data, d ← subscript data "data"; _parse_post d)
    self "POST" "/v1/posts" (Some (JDict body)).

Definition approach (self : Solvr) (problem_id angle : string)
    (content method : option string) (assumptions : option (list string))
    : io → option (res Approach.t * io) :=
  let body : gmap string json := {[ "angle" := JStr angle ]} in
  let body := set_str "content" content body in
  let body := set_str "method" method body in
  let body := set_list "assumptions" assumptions body in
  request_then (λ data, d ← subscript data "data"; _parse_approach d)
    self "POST" ("/v1/problems/" +:+ problem_id +:+ "/approaches")
    (Some (JDict body)).

Definition answer (self : Solvr) (question_id content : string)
    : io → option (res Answer.t * io) :=
  request_then (λ data, d ← subscript data "data"; _parse_answer d)
    self "POST" ("/v1/questions/" +:+ question_id +:+ "/answers")
    (Some (JDict {[ "content" := JStr content ]})).

Definition vote (self : Solvr) (post_id : string)
    (direction : str_or VoteDirection) : io → option (res VoteResult.t * io) :=
  let dir_str :=
    match direction with Str s => s | Enum e => VoteDirection_value e end in
  request_then
    (λ data,
       d ← subscript data "data"; upvotes ← subscript d "upvotes";
       d ← subscript data "data"; downvotes ← subscript d "downvotes";
       d ← subscript data "data"; user_vote ← get d "user_vote";
       Ok (VoteResult.mk upvotes downvotes user_vote))
    self "POST" ("/v1/posts/" +:+ post_id +:+ "/vote")
    (Some (JDict {[ "direction" := JStr dir_str ]})).

End Methods.

End Client.

(** ** infra/provision.py *)

Module Provision.

(** A server and a registered SSH key as the provider keeps them. *)
Record Server := {
  server_id : Z;
  server_name : string;
  server_ip : string;
  server_type : string;
  server_image : string;
  server_location : string;
  server_labels : gmap string string;
  server_ssh_keys : list string;
  server_user_data : option string }.

Record SSHKey := {
  key_name : string;
  public_key : string }.

(** What the commands read but never change: the two places a token may
    come from, and what the outside world answers (the key pair
    [ssh-keygen] writes for a comment, the identifier and address the
    provider assigns to a new server, whether the [n]-th SSH probe
    succeeds, the clock, the text of the boot script). *)
Record environment := {
  env_token : option string;
  cli_token : option string;
  keygen : string → string * string;
  assign : string → Z * string;
  ssh_up : nat → bool;
  now : string;
  CLOUD_INIT_IPFS : string }.

(** What the commands change.  The provider account is the one the token
    opens; local files are indexed by path and hold text, the directories
    under [INSTANCES_DIR] by instance name, each holding its files by
    name.  Instance names are taken to be single path components. *)
Record state := {
  servers : gmap string Server;
  ssh_keys : gmap string SSHKey;
  files : gmap string string;
  instance_dirs : gmap string (gmap string json);
  console : list string;
  stdin : list string;
  slept : list Z;
  ssh_probes : nat }.

(** The outcome of a command: it returns, raises, or leaves through
    [sys.exit]. *)
Inductive outcome (A : Type) :=
| Returned (a : A)
| Raised (e : exn)
| Exited (code : Z).
Arguments Returned {A} a.
Arguments Raised {A} e.
Arguments Exited {A} code.

Definition cmd (A : Type) : Type := state → outcome A * state.

#[global] Instance cmd_ret : MRet cmd := λ A a w, (Returned a, w).
#[global] Instance cmd_bind : MBind cmd := λ A B f m w,
  match m w with
  | (Returned a, w') => f a w'
  | (Raised e, w') => (Raised e, w')
  | (Exited c, w') => (Exited c, w')
  end.

Definition read {A} (f : state → A) : cmd A := λ w, (Returned (f w), w).
Definition modify (f : state → state) : cmd unit := λ w, (Returned (), f w).
Definition sys_exit {A} (code : Z) : cmd A := λ w, (Exited code, w).
Definition raise {A} (e : exn) : cmd A := λ w, (Raised e, w).
Definition ret {A} (a : A) : cmd A := mret a.
Definition skip : cmd unit := mret ().

Definition with_servers (m : gmap string Server) (w : state) : state :=
  {| servers := m; ssh_keys := ssh_keys w; files := files w;
     instance_dirs := instance_dirs w; console := console w;
     stdin := stdin w; slept := slept w; ssh_probes := ssh_probes w |}.

Definition with_ssh_keys (m : gmap string SSHKey) (w : state) : state :=
  {| servers := servers w; ssh_keys := m; files := files w;
     instance_dirs := instance_dirs w; console := console w;
     stdin := stdin w; slept := slept w; ssh_probes := ssh_probes w |}.

Definition with_files (m : gmap string string) (w : state) : state :=
  {| servers := servers w; ssh_keys := ssh_keys w; files := m;
     instance_dirs := instance_dirs w; console := console w;
     stdin := stdin w; slept := slept w; ssh_probes := ssh_probes w |}.

Definition with_instance_dirs (m : gmap string (gmap string json))
    (w : state) : state :=
  {| servers := servers w; ssh_keys := ssh_keys w; files := files w;
     instance_dirs := m; console := console w;
     stdin := stdin w; slept := slept w; ssh_probes := ssh_probes w |}.

Definition with_console (l : list string) (w : state) : state :=
  {| servers := servers w; ssh_keys := ssh_keys w; files := files w;
     instance_dirs := instance_dirs w; console := l;
     stdin := stdin w; slept := slept w; ssh_probes := ssh_probes w |}.

Definition with_stdin (l : list string) (w : state) : state :=
  {| servers := servers w; ssh_keys := ssh_keys w; files := files w;
     instance_dirs := instance_dirs w; console := console w;
     stdin := l; slept := slept w; ssh_probes := ssh_probes w |}.

Definition with_slept (l : list Z) (w : state) : state :=
  {| servers := servers w; ssh_keys := ssh_keys w; files := files w;
     instance_dirs := instance_dirs w; console := console w;
     stdin := stdin w; slept := l; ssh_probes := ssh_probes w |}.

Definition with_ssh_probes (n : nat) (w : state) : state :=
  {| servers := servers w; ssh_keys := ssh_keys w; files := files w;
     instance_dirs := instance_dirs w; console := console w;
     stdin := stdin w; slept := slept w; ssh_probes := n |}.

(** [print(line)]. *)
Definition print (line : string) : cmd unit :=
  modify (λ w, with_console (console w ++ [line]) w).

(** [time.sleep(seconds)]. *)
Definition time_sleep (seconds : Z) : cmd unit :=
  modify (λ w, with_slept (slept w ++ [seconds]) w).

(** [input(prompt)]: the prompt goes to the console, the answer is the next
    line of standard input; [EOFError] when there is none. *)
Definition input (prompt : string) : cmd string :=
  print prompt;;
  l ← read stdin;
  match l with
  | line :: rest => modify (with_stdin rest);; ret line
  | [] => raise EOFError
  end.

(** [s.lower()] on ASCII letters. *)
Definition lower_ascii (c : ascii) : ascii :=
  let n := N_of_ascii c in
  if ((65 <=? n) && (n <=? 90))%N then ascii_of_N (n + 32) else c.

Fixpoint lower (s : string) : string :=
  match s with
  | EmptyString => EmptyString
  | String c s' => String (lower_ascii c) (lower s')
  end.

(** [s.strip()] removes the white space of [str.isspace] from both ends:
    U+0009 to U+000D, U+001C to U+0020, U+0085, U+00A0, U+1680, U+2000 to
    U+200A, U+2028, U+2029, U+202F, U+205F and U+3000, here in their UTF-8
    encodings of one, two and three bytes. *)
Definition is_space1 (a : ascii) : bool :=
  let a := N_of_ascii a in
  ((9 <=? a) && (a <=? 13) || (28 <=? a) && (a <=? 32))%N.

Definition is_space2 (a b : ascii) : bool :=
  let a := N_of_ascii a in
  let b := N_of_ascii b in
  ((a =? 194) && ((b =? 133) || (b =? 160)))%N.

Definition is_space3 (a b c : ascii) : bool :=
  let a := N_of_ascii a in
  let b := N_of_ascii b in
  let c := N_of_ascii c in
  ((a =? 225) && (b =? 154) && (c =? 128)
   || (a =? 226) && (b =? 128)
      && ((128 <=? c) && (c <=? 138) || (c =? 168) || (c =? 169) || (c =? 175))
   || (a =? 226) && (b =? 129) && (c =? 159)
   || (a =? 227) && (b =? 128) && (c =? 128))%N.

(** White space removed from the front of [s]; with [backwards], [s] is
    read from its end, so that the bytes of a character come last byte
    first. *)
Fixpoint strip_front (backwards : bool) (s : string) : string :=
  match s with
  | EmptyString => EmptyString
  | String a s1 =>
      if is_space1 a then strip_front backwards s1
      else
        match s1 with
        | String b s2 =>
            if (if backwards then is_space2 b a else is_space2 a b)
            then strip_front backwards s2
            else
              match s2 with
              | String c s3 =>
                  if (if backwards then is_space3 c b a else is_space3 a b c)
                  then strip_front backwards s3
                  else s
              | EmptyString => s
              end
        | EmptyString => s
        end
  end.

Definition lstrip (s : string) : string := strip_front false s.

Definition rstrip (s : string) : string :=
  String.rev (strip_front true (String.rev s)).

Definition strip (s : string) : string := lstrip (rstrip s).

(** [s * n]. *)
Fixpoint times (s : string) (n : nat) : string :=
  match n with
  | O => ""
  | S n' => s +:+ times s n'
  end.

(** *** Configuration *)

Definition INSTANCES_DIR : string := "instances".
Definition SSH_DIR : string := "~/.ssh".
Definition DEFAULT_LOCATION : string := "nbg1".

Record preset := {
  preset_type : string;
  preset_image : string;
  preset_labels : gmap string string }.

Definition ipfs_preset : preset :=
  {| preset_type := "cx33"; preset_image := "ubuntu-24.04";
     preset_labels := {[ "service" := "ipfs"; "component" := "kubo" ]} |}.

Definition SERVER_PRESETS : gmap string preset :=
  {[ "ipfs" := ipfs_preset;
     "api" := {| preset_type := "cx33"; preset_image := "ubuntu-24.04";
                 preset_labels := {[ "service" := "api"; "component" := "solvr" ]} |};
     "cluster" := {| preset_type := "cx43"; preset_image := "ubuntu-24.04";
                     preset_labels := {[ "service" := "ipfs"; "component" := "cluster" ]} |} ]}.

(** The parsed command line. *)
Record args := {
  name : string;
  purpose : option string;
  type : option string;
  location : option string;
  yes : bool }.

(** [x or dflt] for an optional string. *)
Definition or_else (x : option string) (dflt : string) : string :=
  match x with
  | Some s => if String.eqb s "" then dflt else s
  | None => dflt
  end.

(** *** Utilities *)

(** [Path.stem] of a file name: the name without its last suffix, a
    suffix being what follows the last dot when that dot is neither the
    first nor the last character. *)
Fixpoint rsplit_dot (s : string) : option (string * string) :=
  match s with
  | EmptyString => None
  | String c s' =>
      match rsplit_dot s' with
      | Some (a, b) => Some (String c a, b)
      | None => if Ascii.eqb c "."%char then Some (EmptyString, s') else None
      end
  end.

Definition stem (file : string) : string :=
  match rsplit_dot file with
  | Some (a, b) =>
      if String.eqb a "" || String.eqb b "" then file else a
  | None => file
  end.

Section Commands.

Context (env : environment).

Definition get_client : cmd string :=
  let token :=
    match env_token env with
    | Some t => if String.eqb t "" then cli_token env else Some t
    | None => cli_token env
    end in
  match token with
  | Some t =>
      if String.eqb t "" then
        print "ERROR: HCLOUD_TOKEN not set and no active hcloud context found";;
        print "Set HCLOUD_TOKEN or run: hcloud context create <name>";;
        sys_exit 1
      else ret t
  | None =>
      print "ERROR: HCLOUD_TOKEN not set and no active hcloud context found";;
      print "Set HCLOUD_TOKEN or run: hcloud context create <name>";;
      sys_exit 1
  end.

Definition generate_ssh_key (name : string) : cmd (string * string) :=
  let key_path := SSH_DIR +:+ "/solvr_" +:+ name in
  let pub_path := SSH_DIR +:+ "/" +:+ stem ("solvr_" +:+ name) +:+ ".pub" in
  fs ← read files;
  (if bool_decide (is_Some (fs !! key_path)) then
     print ("✓ SSH key exists: " +:+ key_path)
   else
     print ("🔑 Generating SSH key: " +:+ key_path);;
     let pair := keygen env ("solvr-" +:+ name) in
     modify (λ w, with_files
               (<[key_path +:+ ".pub" := pair.2]>
                  (<[key_path := pair.1]> (files w))) w));;
  fs ← read files;
  match fs !! pub_path with
  | Some text => ret (key_path, strip text)
  | None => raise (FileNotFoundError pub_path)
  end.

Fixpoint wait_loop (remaining : nat) (i max_retries : Z) : cmd bool :=
  match remaining with
  | O => ret false
  | S remaining' =>
      n ← read ssh_probes;
      modify (with_ssh_probes (S n));;
      if ssh_up env n then print "✓ SSH ready";; ret true
      else
        print ("  Retry " +:+ str_of_int (i + 1) +:+ "/"
                 +:+ str_of_int max_retries +:+ "...");;
        time_sleep 5;;
        wait_loop remaining' (i + 1) max_retries
  end.

Definition wait_for_ssh (ip key_path : string) (max_retries : Z) : cmd bool :=
  print "⏳ Waiting for SSH...";;
  wait_loop (Z.to_nat max_retries) 0 max_retries.

Definition save_metadata (name : string) (data : json) : cmd unit :=
  modify (λ w, with_instance_dirs
            (<[name := <["metadata.json" := data]>
                         (default ∅ (instance_dirs w !! name))]>
               (instance_dirs w)) w);;
  print ("✓ Metadata: " +:+ INSTANCES_DIR +:+ "/" +:+ name +:+ "/metadata.json").

(** *** Commands *)

Definition cmd_provision (a : args) : cmd unit :=
  client ← get_client;
  let name := name a in
  let purpose := or_else (purpose a) "ipfs" in
  let location := or_else (location a) DEFAULT_LOCATION in
  let preset := default ipfs_preset (SERVER_PRESETS !! purpose) in
  let server_type := or_else (type a) (preset_type preset) in
  let image := preset_image preset in
  let labels :=
    <["managed-by" := "solvr-infra"]> (<["name" := name]> (preset_labels preset)) in
  print (times "═" 60);;
  print "  Provisioning Solvr Node";;
  print ("  Name:     " +:+ name);;
  print ("  Purpose:  " +:+ purpose);;
  print ("  Type:     " +:+ server_type);;
  print ("  Location: " +:+ location);;
  print (times "═" 60);;
  print "";;
  existing ← read (λ w, servers w !! name);
  match existing with
  | Some existing =>
      print ("✓ Server '" +:+ name +:+ "' already exists");;
      print ("  IP: " +:+ server_ip existing)
  | None =>
      '(ssh_key_path, ssh_pub_key) ← generate_ssh_key name;
      let ssh_key_name := "solvr-" +:+ name in
      existing_key ← read (λ w, ssh_keys w !! ssh_key_name);
      ssh_key ←
        match existing_key with
        | Some k =>
            print ("✓ SSH key '" +:+ ssh_key_name +:+ "' exists in Hetzner");;
            ret k
        | None =>
            print "📤 Uploading SSH key to Hetzner...";;
            let k := {| key_name := ssh_key_name; public_key := ssh_pub_key |} in
            modify (λ w, with_ssh_keys (<[ssh_key_name := k]> (ssh_keys w)) w);;
            ret k
        end;
      let user_data :=
        if String.eqb purpose "ipfs" then Some (CLOUD_INIT_IPFS env) else None in
      print ("🖥️  Creating server '" +:+ name +:+ "'...");;
      let server :=
        {| server_id := (assign env name).1; server_name := name;
           server_ip := (assign env name).2; server_type := server_type;
           server_image := image; server_location := location;
           server_labels := labels; server_ssh_keys := [key_name ssh_key];
           server_user_data := user_data |} in
      modify (λ w, with_servers (<[name := server]> (servers w)) w);;
      let ip := server_ip server in
      print ("✓ Server created: " +:+ ip);;
      print "⏳ Waiting 45s for boot + cloud-init...";;
      time_sleep 45;;
      ready ← wait_for_ssh ip ssh_key_path 10;
      (if (ready : bool) then skip
       else print "⚠️  SSH not ready yet, but server is running");;
      let metadata : gmap string json :=
        {[ "name" := JStr name; "purpose" := JStr purpose; "ip" := JStr ip;
           "server_type" := JStr server_type; "location" := JStr location;
           "labels" := JDict (JStr <$> labels);
           "ssh_key_path" := JStr ssh_key_path;
           "created_at" := JStr (now env);
           "hetzner_id" := JInt (server_id server) ]} in
      save_metadata name (JDict metadata);;
      print "";;
      print (times "═" 60);;
      print "  ✅ Provisioning Complete";;
      print "";;
      print ("  Server:  " +:+ name);;
      print ("  IP:      " +:+ ip);;
      print ("  SSH:     ssh -i " +:+ ssh_key_path +:+ " root@" +:+ ip);;
      print "";;
      (if String.eqb purpose "ipfs" then
         print "  IPFS Status: /opt/solvr/ipfs/status.sh";;
         print "  IPFS API:    http://127.0.0.1:5001 (via SSH tunnel)"
       else skip);;
      print (times "═" 60)
  end.

Definition cmd_destroy (a : args) : cmd unit :=
  client ← get_client;
  let name := name a in
  server ← read (λ w, servers w !! name);
  match server with
  | None => print ("Server '" +:+ name +:+ "' not found")
  | Some server =>
      proceed ←
        (if yes a then ret true
         else
           confirm ← input ("⚠️  Destroy server '" +:+ name +:+ "' ("
                              +:+ server_ip server +:+ ")? [y/N] ");
           if String.eqb (lower confirm) "y" then ret true
           else print "Cancelled";; ret false);
      if proceed : bool then
        print ("🗑️  Destroying server '" +:+ name +:+ "'...");;
        modify (λ w, with_servers (delete name (servers w)) w);;
        dirs ← read instance_dirs;
        (if bool_decide (is_Some (dirs !! name)) then
           modify (λ w, with_instance_dirs (delete name (instance_dirs w)) w)
         else skip);;
        ssh_key ← read (λ w, ssh_keys w !! ("solvr-" +:+ name));
        (match ssh_key with
         | Some k =>
               modify (λ w, with_ssh_keys
                         (delete ("solvr-" +:+ name) (ssh_keys w)) w)
         | None => skip
         end);;
        print ("✓ Server '" +:+ name +:+ "' destroyed")
      else skip
  end.

End Commands.

End Provision.

(** ** Vocabulary of the statements about the client *)

Module ClientSpec.
Import Client.

(** The delay [backoff] computes when the conversion does not overflow. *)
Definition delay (attempts : Z) : Q :=
  min2 (float_0_1 * inject_Z (2 ^ (attempts - 1)))%Q (inject_Z 5).

(** The error a reply sends into the retry path, if it does: a transport
    failure, a response that is not [ok] outside 400..499, or an [ok]
    response whose body does not parse. *)
Definition retryable_error (rep : reply) : option exn :=
  match rep with
  | Failed e => Some (RequestException e)
  | Replied r =>
      if ok r then
        match body r with
        | Some _ => None
        | None => Some (RequestException JSONDecodeError)
        end
      else if (400 <=? status_code r) && (status_code r <? 500) then None
      else Some (SolvrError (error_body r).1 (status_code r) (error_body r).2)
  end.

(** A 5xx response or a transport-level failure, and the error the client
    observes on it. *)
Definition server_failure (rep : reply) : Prop :=
  match rep with
  | Failed _ => True
  | Replied r => 500 ≤ status_code r < 600
  end.

Definition observed_error (rep : reply) : exn :=
  match rep with
  | Failed e => RequestException e
  | Replied r => SolvrError (error_body r).1 (status_code r) (error_body r).2
  end.

(** The state after one more request has been logged and sent. *)
Definition after_send (self : Solvr) (req : http_request) (w : io) : io :=
  {| sent := sent w ++ [req];
     slept := slept w;
     logged := if _debug self
               then logged w ++ [req_method req +:+ " " +:+ req_url req]
               else logged w |}.

(** The state after [m] failed attempts, numbered [attempts + 1] to
    [attempts + m], each followed by its sleep. *)
Definition after_retries (self : Solvr) (req : http_request) (attempts : Z)
    (m : nat) (w : io) : io :=
  {| sent := sent w ++ replicate m req;
     slept := slept w ++ ((λ i, delay (attempts + 1 + Z.of_nat i)) <$> seq 0 m);
     logged := if _debug self
               then logged w ++ replicate m (req_method req +:+ " " +:+ req_url req)
               else logged w |}.

(** Number of requests one call of [_request] sends. *)
Definition attempts_made (server : nat → http_request → reply) (self : Solvr)
    (method endpoint : string) (payload : option json) (w : io) : nat :=
  match _request server self method endpoint payload w with
  | Some (_, w') => (length (sent w') - length (sent w))%nat
  | None => 0%nat
  end.

(** C2 as the specification states it: when every attempt the call can make
    yields a reply (the timeout is one the library accepts) and that reply
    is a 5xx response or a transport failure, the call makes as many
    attempts as [retries] says and raises the error of the last one. *)
Definition retries_exhausted (server : nat → http_request → reply)
    (self : Solvr) (method endpoint : string) (payload : option json)
    (w : io) : Prop :=
  let req := build_request self method endpoint payload in
  0 < _timeout self →
  (∀ i, (i < Z.to_nat (_retries self))%nat →
        server_failure (server (length (sent w) + i)%nat req)) →
  ∃ w' last,
    Z.of_nat (S last) = _retries self
    ∧ _request server self method endpoint payload w
      = Some (Raise (observed_error (server (length (sent w) + last)%nat req)), w')
    ∧ sent w' = sent w ++ replicate (S last) req.

(** A parsed body carries an error object when it is a dict whose ["error"]
    is a dict.  A failed response is malformed when its body does not parse
    or carries no error object. *)
Definition has_error_object (v : json) : bool :=
  match v with
  | JDict d => match d !! "error" with Some (JDict _) => true | _ => false end
  | _ => false
  end.

Definition malformed (r : Response) : bool :=
  match body r with
  | None => true
  | Some v => negb (has_error_object v)
  end.

(** Two replies that differ at most in the body of a response that is not
    [ok]. *)
Definition same_but_error_body (a b : reply) : Prop :=
  match a, b with
  | Replied r1, Replied r2 =>
      status_code r1 = status_code r2 ∧ (ok r1 = true → body r1 = body r2)
  | Failed e1, Failed e2 => e1 = e2
  | _, _ => False
  end.

(** Two errors that differ at most in the message and the code of a
    [SolvrError]. *)
Definition same_error (e e' : exn) : Prop :=
  match e, e' with
  | SolvrError _ s _, SolvrError _ s' _ => s = s'
  | SolvrError _ _ _, _ => False
  | _, SolvrError _ _ _ => False
  | _, _ => e = e'
  end.

Definition same_step (a b : step) : Prop :=
  match a, b with
  | Return_ j, Return_ j' => j = j'
  | Raise_ e, Raise_ e' => same_error e e'
  | Continue e d, Continue e' d' => same_error e e' ∧ d = d'
  | _, _ => False
  end.

Definition same_outcome (a b : res json) : Prop :=
  match a, b with
  | Ok j, Ok j' => j = j'
  | Raise e, Raise e' => same_error e e'
  | _, _ => False
  end.

(** Well-formed nested values of a post: an author is falsy or a dict with
    [id], [type] and [display_name]; an approach is a dict with [id] and
    [angle], an answer a dict with [id] and [content], each with a
    well-formed author; [approaches] and [answers] are falsy or lists of
    such. *)
Definition has_keys (keys : list string) (v : json) : bool :=
  match v with
  | JDict d => forallb (λ k, bool_decide (is_Some (d !! k))) keys
  | _ => false
  end.

Definition author_wf (v : json) : bool :=
  negb (truthy v) || has_keys ["id"; "type"; "display_name"] v.

Definition author_field_wf (v : json) : bool :=
  match v with
  | JDict d => author_wf (default JNull (d !! "author"))
  | _ => false
  end.

Definition approach_wf (v : json) : bool :=
  has_keys ["id"; "angle"] v && author_field_wf v.

Definition answer_wf (v : json) : bool :=
  has_keys ["id"; "content"] v && author_field_wf v.

Definition list_wf (item_wf : json → bool) (v : json) : bool :=
  negb (truthy v)
  || match v with JList l => forallb item_wf l | _ => false end.

Definition post_nested_wf (d : gmap string json) : bool :=
  author_field_wf (JDict d)
  && list_wf approach_wf (default JNull (d !! "approaches"))
  && list_wf answer_wf (default JNull (d !! "answers")).










(** Scenarios of the test suite. *)
Definition test_client (retries : Z) : Solvr :=
  {| _api_key := "solvr_sk_test_key"; _base_url := "https://api.solvr.dev";
     _timeout := 30; _retries := retries; _debug := false |}.

Definition idle : io := {| sent := []; slept := []; logged := [] |}.

Definition unauthorized : Response :=
  {| status_code := 401;
     body := Some (JDict {[ "error" :=
                              JDict {[ "message" := JStr "Unauthorized" ]} ]}) |}.

Definition unavailable : Response := {| status_code := 503; body := None |}.

Definition empty_page : Response :=
  {| status_code := 200;
     body := Some (JDict {[ "data" := JList [];
                            "meta" := JDict {[ "total" := JInt 0;
                                               "page" := JInt 1;
                                               "per_page" := JInt 10 ]} ]}) |}.

(** [test_non_json_error]: a 500 whose body is the text
    [Internal Server Error], and the same status with a JSON error. *)
Definition internal_error : Response := {| status_code := 500; body := None |}.

Definition internal_error_json : Response :=
  {| status_code := 500;
     body := Some (JDict {[ "error" :=
                              JDict {[ "message" := JStr "Database down";
                                       "code" := JStr "DB_DOWN" ]} ]}) |}.

(** A server that fails [n] times with 503 and then answers. *)
Definition flaky (n : nat) (then_ : Response) : nat → http_request → reply :=
  λ i _, if (i <? n)%nat then Replied unavailable else Replied then_.

End ClientSpec.

(** ** Vocabulary of the statements about the provisioner *)

Module ProvisionSpec.
Import Provision.

(** The token [get_client] ends up with, and whether there is one. *)
Definition token (env : environment) : option string :=
  match env_token env with
  | Some t => if String.eqb t "" then cli_token env else Some t
  | None => cli_token env
  end.

Definition has_token (env : environment) : bool :=
  match token env with
  | Some t => negb (String.eqb t "")
  | None => false
  end.

(** The confirmation [cmd_destroy] needs: the flag, or an answer that is
    [y] in either case. *)
Definition confirmed (a : args) (w : state) : Prop :=
  yes a = true
  ∨ ∃ line rest, stdin w = line :: rest ∧ lower line = "y".

(** An account with one server, and the command line that names it. *)
Definition some_env : environment :=
  {| env_token := Some "token"; cli_token := None;
     keygen := λ comment, ("private key", "ssh-ed25519 AAAA " +:+ comment);
     assign := λ _, (42, "203.0.113.7");
     ssh_up := λ _, true;
     now := "2026-01-01T00:00:00+00:00";
     CLOUD_INIT_IPFS := "#cloud-config" |}.

Definition ipfs_01 : Server :=
  {| server_id := 42; server_name := "solvr-ipfs-01";
     server_ip := "203.0.113.7"; server_type := "cx33";
     server_image := "ubuntu-24.04"; server_location := "nbg1";
     server_labels := {[ "managed-by" := "solvr-infra" ]};
     server_ssh_keys := ["solvr-solvr-ipfs-01"];
     server_user_data := None |}.

Definition one_server : state :=
  {| servers := {[ "solvr-ipfs-01" := ipfs_01 ]};
     ssh_keys := {[ "solvr-solvr-ipfs-01" :=
                      {| key_name := "solvr-solvr-ipfs-01";
                         public_key := "ssh-ed25519 AAAA" |} ]};
     files := {[ "~/.ssh/solvr_solvr-ipfs-01" := "private key" ]};
     instance_dirs := {[ "solvr-ipfs-01" := {[ "metadata.json" := JDict ∅ ]} ]};
     console := [];
     stdin := ["Y"];
     slept := [];
     ssh_probes := 0 |}.

Definition ipfs_01_args (yes : bool) : args :=
  {| name := "solvr-ipfs-01"; purpose := None; type := None;
     location := None; yes := yes |}.

End ProvisionSpec.

(** ** Further vocabulary: every run of the client *)

Module ClientRunSpec.
Import Client ClientSpec.

(** The sleeps between [n + 1] attempts: the delay of attempt 1, then of
    attempt 2, up to attempt [n]. *)
Definition schedule (n : nat) : list Q :=
  (λ i, delay (Z.of_nat i + 1)) <$> seq 0 n.

(** The line [logger.debug] receives for a request. *)
Definition debug_line (req : http_request) : string :=
  req_method req +:+ " " +:+ req_url req.


(** The decoding that undoes [quote_plus]: [+] is a space and [%XY] the
    byte with hexadecimal digits [X] and [Y]. *)
Definition hex_value (c : ascii) : N :=
  let n := N_of_ascii c in
  (if (48 <=? n) && (n <=? 57) then n - 48
   else if (65 <=? n) && (n <=? 70) then n - 55
   else n - 87)%N.

Fixpoint unquote_plus (s : string) : string :=
  match s with
  | EmptyString => EmptyString
  | String c s' =>
      if Ascii.eqb c "+"%char then String " "%char (unquote_plus s')
      else if Ascii.eqb c "%"%char then
        match s' with
        | String h (String l s'') =>
            String (ascii_of_N (16 * hex_value h + hex_value l))
              (unquote_plus s'')
        | _ => String c (unquote_plus s')
        end
      else String c (unquote_plus s')
  end.

(** The keys [search] may send, in the order it sends them. *)
Definition search_keys : list string :=
  ["q"; "type"; "status"; "per_page"; "page"].

(** [n] slashes. *)
Fixpoint slashes (n : nat) : string :=
  match n with
  | O => ""
  | S n' => String "/"%char (slashes n')
  end.

(** The response of [test_search_basic]. *)
Definition search_basic_row : gmap string json :=
  {[ "id" := JStr "post_1"; "type" := JStr "problem";
     "title" := JStr "Test Problem"; "score" := JFloat (95 # 100) ]}.

Definition search_basic_meta : gmap string json :=
  {[ "total" := JInt 1; "page" := JInt 1; "per_page" := JInt 10 ]}.

Definition search_basic_body : gmap string json :=
  {[ "data" := JList [JDict search_basic_row];
     "meta" := JDict search_basic_meta ]}.

End ClientRunSpec.

(** ** provision.py: the remaining commands *)

Module ProvisionRest.
Import Provision.

(** [load_metadata]: the parsed [metadata.json] of an instance, [None]
    when the file is not there.  The file holds what [save_metadata]
    serialised, which [json.loads] reads back as the same value. *)
Definition load_metadata (name : string) : cmd (option json) :=
  read (λ w, dir ← instance_dirs w !! name; dir !! "metadata.json").

(** [f"{s:<n}"]: [s] padded with spaces on the right up to [n]
    characters (bytes, in this model of strings), unchanged when it is
    longer. *)
Definition ljust (s : string) (n : nat) : string :=
  s +:+ times " " (n - String.length s).

(** The parsed command line of [main]. *)
Record namespace := {
  ns_name : option string;
  ns_purpose : option string;
  ns_type : option string;
  ns_location : option string;
  ns_list : bool;
  ns_status : option string;
  ns_destroy : option string;
  ns_yes : bool }.

(** [if s:] for an optional string. *)
Definition given (s : option string) : option string :=
  match s with
  | Some v => if String.eqb v "" then None else Some v
  | None => None
  end.

Section Commands.

Context (env : environment).

(** What the provider reports for a server beyond what [Server] keeps (its
    state and the name of its datacenter), the order in which it lists
    servers, how Python prints a dictionary of labels and a JSON value,
    and the text of [print_help]. *)
Context (status_of datacenter_of : Server → string).
Context (listing : gmap string Server → list Server).
Context (show_labels : gmap string string → string).
Context (show : json → string).
Context (help : list string).

(** [client.servers.get_all(label_selector="managed-by=solvr-infra")]. *)
Definition managed (s : Server) : bool :=
  bool_decide (server_labels s !! "managed-by" = Some "solvr-infra").

Definition get_all_managed (w : state) : list Server :=
  filter (λ s, managed s = true) (listing (servers w)).

Definition list_line (s : Server) : string :=
  ljust (server_name s) 20 +:+ " " +:+ ljust (server_ip s) 16 +:+ " "
  +:+ ljust (server_type s) 8 +:+ " " +:+ ljust (status_of s) 10 +:+ " "
  +:+ ljust (default "unknown" (server_labels s !! "service")) 10.

Fixpoint print_all (lines : list string) : cmd unit :=
  match lines with
  | [] => skip
  | line :: rest => print line;; print_all rest
  end.

Definition cmd_list : cmd unit :=
  client ← get_client env;
  found ← read get_all_managed;
  match found with
  | [] => print "No Solvr servers found"
  | _ =>
      print (ljust "NAME" 20 +:+ " " +:+ ljust "IP" 16 +:+ " "
             +:+ ljust "TYPE" 8 +:+ " " +:+ ljust "STATUS" 10 +:+ " "
             +:+ ljust "PURPOSE" 10);;
      print (times "-" 70);;
      print_all (list_line <$> found)
  end.

(** [meta.get(key, dflt)] inside an f-string. *)
Definition show_field (meta : json) (key : string) (dflt : json) : cmd string :=
  match get_default meta key dflt with
  | Ok v => ret (show v)
  | Raise e => raise e
  end.

Definition cmd_status (a : args) : cmd unit :=
  client ← get_client env;
  let name := name a in
  server ← read (λ w, servers w !! name);
  match server with
  | None => print ("Server '" +:+ name +:+ "' not found")
  | Some server =>
      meta ← load_metadata name;
      print (times "═" 60);;
      print ("  Server: " +:+ name);;
      print (times "═" 60);;
      print ("  IP:       " +:+ server_ip server);;
      print ("  Status:   " +:+ status_of server);;
      print ("  Type:     " +:+ server_type server);;
      print ("  Location: " +:+ datacenter_of server);;
      print ("  Labels:   " +:+ show_labels (server_labels server));;
      (match meta with
       | Some m =>
           if truthy m then
             created ← show_field m "created_at" (JStr "unknown");
             print ("  Created:  " +:+ created);;
             key ← show_field m "ssh_key_path" JNull;
             print ("  SSH:      ssh -i " +:+ key +:+ " root@"
                    +:+ server_ip server)
           else skip
       | None => skip
       end);;
      print (times "═" 60)
  end.

(** The arguments a command of [main] sees once [args.name] is set. *)
Definition args_for (ns : namespace) (name : string) : args :=
  {| name := name; purpose := ns_purpose ns; type := ns_type ns;
     location := ns_location ns; yes := ns_yes ns |}.

Definition main (ns : namespace) : cmd unit :=
  if ns_list ns then cmd_list
  else
    match given (ns_status ns) with
    | Some name => cmd_status (args_for ns name)
    | None =>
        match given (ns_destroy ns) with
        | Some name => cmd_destroy env (args_for ns name)
        | None =>
            match given (ns_name ns) with
            | Some name => cmd_provision env (args_for ns name)
            | None => print_all help
            end
        end
    end.

End Commands.

End ProvisionRest.

(** ** Further vocabulary: the provisioner *)

Module ProvisionRunSpec.
Import Provision ProvisionSpec ProvisionRest.

(** The two paths [generate_ssh_key] works with: the private key, and the
    public key as [with_suffix(".pub")] names it. *)
Definition key_path (name : string) : string :=
  SSH_DIR +:+ "/solvr_" +:+ name.

Definition pub_path (name : string) : string :=
  SSH_DIR +:+ "/" +:+ stem ("solvr_" +:+ name) +:+ ".pub".

(** Two states that differ at most in what was printed. *)
Definition same_but_console (w w' : state) : Prop :=
  w' = with_console (console w') w.

(** Two states with the same provider account and the same local files. *)
Definition same_resources (w w' : state) : Prop :=
  servers w' = servers w ∧ ssh_keys w' = ssh_keys w ∧ files w' = files w
  ∧ instance_dirs w' = instance_dirs w.

(** The number of SSH probes among the next [n] that fail before the first
    one that succeeds ([n] when all fail). *)
Fixpoint failed_probes (up : nat → bool) (from n : nat) : nat :=
  match n with
  | O => 0
  | S n' => if up from then 0 else S (failed_probes up (S from) n')
  end.

(** The local files once [generate_ssh_key] has called [ssh-keygen], which
    it does when the private key is not there. *)
Definition generated_files (env : environment) (name : string)
    (fs : gmap string string) : gmap string string :=
  if bool_decide (is_Some (fs !! key_path name)) then fs
  else <[key_path name +:+ ".pub" := (keygen env ("solvr-" +:+ name)).2]>
         (<[key_path name := (keygen env ("solvr-" +:+ name)).1]> fs).

(** How every command ends when there is no token. *)
Definition refused (w : state) : outcome unit * state :=
  (Exited 1,
   with_console
     (console w
      ++ ["ERROR: HCLOUD_TOKEN not set and no active hcloud context found";
          "Set HCLOUD_TOKEN or run: hcloud context create <name>"]) w).

(** No token in the environment, a blank one from the command line tool. *)
Definition no_token_env : environment :=
  {| env_token := None; cli_token := Some "";
     keygen := keygen some_env; assign := assign some_env;
     ssh_up := ssh_up some_env; now := now some_env;
     CLOUD_INIT_IPFS := CLOUD_INIT_IPFS some_env |}.

(** Command lines: a second server, a server whose name has a suffix, and
    [--list] together with [--destroy solvr-ipfs-01 --yes]. *)
Definition ipfs_02_args : args :=
  {| name := "solvr-ipfs-02"; purpose := None; type := Some "cx43";
     location := None; yes := true |}.

Definition dotted_args : args :=
  {| name := "ipfs.01"; purpose := None; type := None; location := None;
     yes := false |}.

Definition list_and_destroy : namespace :=
  {| ns_name := None; ns_purpose := None; ns_type := None;
     ns_location := None; ns_list := true; ns_status := None;
     ns_destroy := Some "solvr-ipfs-01"; ns_yes := true |}.

End ProvisionRunSpec.

(** ** The retry loop *)

Module ClientProofs.
Import Client ClientSpec.

Lemma request_loop_step server fuel self req le attempts w :
  attempts < _retries self →
  0 < req_timeout req →
  request_loop server (S fuel) self req le attempts w =
  match loop_body self (attempts + 1) (server (length (sent w)) req) with
  | Return_ j => Some (Ok j, after_send self req w)
  | Raise_ e => Some (Raise e, after_send self req w)
  | Continue e d =>
      request_loop server fuel self req (Some e) (attempts + 1)
        (time_sleep d (after_send self req w))
  end.
Proof.
  intros Hlt Htimeout. apply Z.ltb_lt in Hlt. apply Z.leb_gt in Htimeout.
  cbn [request_loop]. rewrite Hlt.
  unfold requests_request, after_send, logger_debug. rewrite Htimeout.
  destruct (_debug self); reflexivity.
Qed.

(** A timeout that is not positive: the first call raises and the
    [ValueError] leaves the loop. *)
Lemma request_loop_refused server fuel self req le attempts w :
  attempts < _retries self →
  req_timeout req ≤ 0 →
  request_loop server (S fuel) self req le attempts w =
  Some (Raise (timeout_refused (req_timeout req)), after_send self req w).
Proof.
  intros Hlt Htimeout. apply Z.ltb_lt in Hlt. apply Z.leb_le in Htimeout.
  cbn [request_loop]. rewrite Hlt.
  unfold requests_request, after_send, logger_debug. rewrite Htimeout.
  destruct (_debug self); reflexivity.
Qed.

Lemma request_loop_stop server fuel self req le attempts w :
  _retries self ≤ attempts →
  request_loop server fuel self req le attempts w =
  Some (Raise (default (Exception "Request failed after retries") le), w).
Proof.
  intros Hge. apply Z.ltb_ge in Hge.
  destruct fuel; cbn [request_loop]; rewrite Hge; reflexivity.
Qed.

(** The loop ends within [_retries - attempts] passes. *)
Lemma request_loop_total server self req fuel :
  ∀ le attempts w,
    _retries self - attempts ≤ Z.of_nat fuel →
    ∃ out w', request_loop server fuel self req le attempts w = Some (out, w').
Proof.
  induction fuel as [|fuel IH]; intros le attempts w Hfuel.
  - rewrite request_loop_stop by lia. eauto.
  - destruct (Z.lt_ge_cases attempts (_retries self)) as [Hlt|Hge];
      [|rewrite request_loop_stop by done; eauto].
    destruct (Z.lt_ge_cases 0 (req_timeout req)) as [Hpos|Hneg];
      [|rewrite request_loop_refused by done; eauto].
    rewrite request_loop_step by done.
    destruct (loop_body _ _ _); eauto. apply IH. lia.
Qed.

Lemma _request_total server self method endpoint payload w :
  ∃ out w', _request server self method endpoint payload w = Some (out, w').
Proof. unfold _request. apply request_loop_total. lia. Qed.

(** *** Client errors *)

Lemma loop_body_4xx self attempts r :
  400 ≤ status_code r < 500 →
  loop_body self attempts (Replied r) =
  Raise_ (SolvrError (error_body r).1 (status_code r) (error_body r).2).
Proof.
  intros [Hlo Hhi]. unfold loop_body, ok.
  assert ((400 <=? status_code r) = true) as -> by lia.
  assert ((status_code r <? 600) = true) as -> by lia.
  assert ((status_code r <? 500) = true) as -> by lia.
  destruct (error_body r); reflexivity.
Qed.

(** Whatever the loop has left to do, a 4xx answer to one of its attempts
    ends it there. *)
Lemma request_loop_4xx server self req fuel :
  0 < req_timeout req →
  ∀ le attempts w out w' k r,
    request_loop server fuel self req le attempts w = Some (out, w') →
    (length (sent w) + k < length (sent w'))%nat →
    server (length (sent w) + k)%nat req = Replied r →
    400 ≤ status_code r < 500 →
    out = Raise (SolvrError (error_body r).1 (status_code r) (error_body r).2)
    ∧ sent w' = sent w ++ replicate (S k) req
    ∧ length (slept w') = (length (slept w) + k)%nat.
Proof.
  intros Htimeout.
  induction fuel as [|fuel IH]; intros le attempts w out w' k r Hrun Hk Hr H4.
  - destruct (Z.lt_ge_cases attempts (_retries self)) as [Hlt|Hge].
    + cbn [request_loop] in Hrun. apply Z.ltb_lt in Hlt. rewrite Hlt in Hrun.
      discriminate.
    + rewrite request_loop_stop in Hrun by done. simplify_eq. lia.
  - destruct (Z.lt_ge_cases attempts (_retries self)) as [Hlt|Hge];
      [|rewrite request_loop_stop in Hrun by done; simplify_eq; lia].
    rewrite request_loop_step in Hrun by done.
    destruct k as [|k].
    + rewrite Nat.add_0_r in Hr. rewrite Hr, loop_body_4xx in Hrun by done.
      simplify_eq. cbn. split_and!; [done|done|lia].
    + destruct (loop_body self (attempts + 1) (server (length (sent w)) req))
        as [j|e|e d] eqn:Hbody.
      * simplify_eq. cbn in Hk. rewrite length_app in Hk. cbn in Hk. lia.
      * simplify_eq. cbn in Hk. rewrite length_app in Hk. cbn in Hk. lia.
      * eapply (IH _ _ _ _ _ k r) in Hrun as (-> & Hsent & Hslept); cbn.
        -- split_and!; [done| |].
           ++ rewrite Hsent. cbn. by rewrite <- app_assoc.
           ++ rewrite Hslept. cbn. rewrite length_app. cbn. lia.
        -- cbn. rewrite length_app. cbn. lia.
        -- cbn. rewrite length_app. cbn.
           by replace (length (sent w) + 1 + k)%nat
             with (length (sent w) + S k)%nat by lia.
        -- done.
Qed.

(** What the error of a failed response carries: the message and the code
    of the error object in its body, each with its default, and the
    generic message with no code when there is no such object. *)
Lemma error_body_parsed r d e :
  body r = Some (JDict d) →
  d !! "error" = Some (JDict e) →
  error_body r
  = (default (JStr ("API error: " +:+ str_of_int (status_code r)))
       (e !! "message"),
     default JNull (e !! "code")).
Proof.
  intros Hbody Herror. unfold error_body. rewrite Hbody. cbn.
  by rewrite Herror.
Qed.

Lemma error_body_malformed r :
  malformed r = true →
  error_body r = (JStr ("API error: " +:+ str_of_int (status_code r)), JNull).
Proof.
  unfold malformed, error_body, has_error_object.
  destruct (body r) as [[| | | | | |d]|]; cbn; try done.
  destruct (d !! "error") as [[| | | | | |d']|]; cbn; done.
Qed.

(** C1.  Take any call of [_request] with a timeout the library accepts,
    whatever [retries] is, and any attempt it makes (the [k+1]-th) that is
    answered by a response with a status in [400,500).  Then the call ends
    with that attempt: it raises a [SolvrError] carrying that status and
    sends nothing after it; for the first attempt ([k = 0]) this is
    exactly one request.  The error carries the parsed message and the
    optional code: when the body is an object whose [error] is an object,
    the message is the [message] of that object ([API error: <status>]
    when it has none) and the code is its [code] ([None] when it has
    none); when the body does not parse or has no error object, they are
    [API error: <status>] and [None]. *)
Theorem C1_client_error_is_terminal server self method endpoint payload w k r :
  0 < _timeout self →
  (k < attempts_made server self method endpoint payload w)%nat →
  server (length (sent w) + k)%nat (build_request self method endpoint payload)
    = Replied r →
  400 ≤ status_code r < 500 →
  ∃ message code w',
    _request server self method endpoint payload w
      = Some (Raise (SolvrError message (status_code r) code), w')
    ∧ sent w' = sent w ++ replicate (S k) (build_request self method endpoint payload)
    ∧ attempts_made server self method endpoint payload w = S k
    ∧ (∀ d e,
         body r = Some (JDict d) → d !! "error" = Some (JDict e) →
         message
         = default (JStr ("API error: " +:+ str_of_int (status_code r)))
             (e !! "message")
         ∧ code = default JNull (e !! "code"))
    ∧ (malformed r = true →
       message = JStr ("API error: " +:+ str_of_int (status_code r))
       ∧ code = JNull).
Proof.
  intros Htimeout Hk Hr H4. unfold attempts_made in *.
  destruct (_request_total server self method endpoint payload w)
    as (out & w' & Hrun).
  rewrite Hrun in Hk |- *. unfold _request in Hrun.
  eapply (request_loop_4xx _ _ (build_request self method endpoint payload)
            _ Htimeout _ _ _ _ _ k r) in Hrun
    as (-> & Hsent & _); [|lia|done..].
  exists (error_body r).1, (error_body r).2, w'. split_and!; [done|done| | |].
  - rewrite Hsent, length_app, length_replicate. lia.
  - intros d e Hbody Herror. by rewrite (error_body_parsed r d e Hbody Herror).
  - intros Hmalformed. by rewrite (error_body_malformed r Hmalformed).
Qed.

(** The scenario of [test_no_retry_on_4xx]: a 401 with [retries = 3],
    whose body carries a message and no code. *)
Lemma C1_witness :
  ∃ w',
    _request (λ _ _, Replied unauthorized) (test_client 3) "GET"
      "/v1/search?q=test" None idle
      = Some (Raise (SolvrError (JStr "Unauthorized") 401 JNull), w')
    ∧ sent w' = sent idle
                ++ replicate 1 (build_request (test_client 3) "GET"
                                  "/v1/search?q=test" None)
    ∧ attempts_made (λ _ _, Replied unauthorized) (test_client 3) "GET"
        "/v1/search?q=test" None idle = 1%nat.
Proof.
  destruct (C1_client_error_is_terminal (λ _ _, Replied unauthorized)
              (test_client 3) "GET" "/v1/search?q=test" None idle 0
              unauthorized)
    as (message & code & w' & Hrun & Hsent & Hmade & Hparsed & _).
  - reflexivity.
  - vm_compute. lia.
  - reflexivity.
  - simpl. lia.
  - destruct (Hparsed _ _ eq_refl eq_refl) as [-> ->].
    exists w'. split_and!; [exact Hrun|exact Hsent|exact Hmade].
Defined.

(** *** No attempt at all *)

(** C9.  A client whose [retries] is zero or negative: [__init__] accepts
    it, and then [_request] and each of the six public methods send
    nothing, sleep for nothing and raise the plain
    [Exception("Request failed after retries")], which is not a
    [SolvrError]. *)
Theorem C9_no_attempt_without_retries server api_key base_url timeout retries
    debug self w :
  __init__ api_key base_url timeout retries debug = Ok self →
  retries ≤ 0 →
  (∀ method endpoint payload,
     _request server self method endpoint payload w
       = Some (Raise (Exception "Request failed after retries"), w))
  ∧ (∀ query type status limit page,
       search server self query type status limit page w
         = Some (Raise (Exception "Request failed after retries"), w))
  ∧ (∀ id include,
       get_post server self id include w
         = Some (Raise (Exception "Request failed after retries"), w))
  ∧ (∀ type title description tags success_criteria,
       post server self type title description tags success_criteria w
         = Some (Raise (Exception "Request failed after retries"), w))
  ∧ (∀ problem_id angle content method assumptions,
       approach server self problem_id angle content method assumptions w
         = Some (Raise (Exception "Request failed after retries"), w))
  ∧ (∀ question_id content,
       answer server self question_id content w
         = Some (Raise (Exception "Request failed after retries"), w))
  ∧ (∀ post_id direction,
       vote server self post_id direction w
         = Some (Raise (Exception "Request failed after retries"), w)).
Proof.
  intros Hinit Hle.
  assert (_retries self = retries) as Hretries.
  { unfold __init__ in Hinit. destruct (String.eqb api_key ""); by simplify_eq. }
  assert (∀ method endpoint payload,
            _request server self method endpoint payload w
              = Some (Raise (Exception "Request failed after retries"), w))
    as Hreq.
  { intros. unfold _request. by rewrite request_loop_stop by lia. }
  split_and!; intros; try apply Hreq;
    unfold search, get_post, post, approach, answer, vote, request_then;
    rewrite Hreq; reflexivity.
Qed.

Lemma C9_witness :
  _request (λ _ _, Replied unauthorized) (test_client 0) "GET"
    "/v1/search?q=test" None idle
    = Some (Raise (Exception "Request failed after retries"), idle)
  ∧ search (λ _ _, Replied unauthorized) (test_client 0) "test" None None None
      None idle
    = Some (Raise (Exception "Request failed after retries"), idle).
Proof.
  pose proof (C9_no_attempt_without_retries (λ _ _, Replied unauthorized)
                "solvr_sk_test_key" "https://api.solvr.dev" 30 0 false
                (test_client 0) idle) as H.
  destruct H as (Hrequest & Hsearch & _); [reflexivity|lia|].
  split; [apply Hrequest|apply Hsearch].
Defined.

(** *** The query of [search] *)


(** *** Retryable failures *)

Lemma backoff_in_range a : a ≤ 1024 → backoff a = Ok (delay a).
Proof.
  intros Ha. unfold backoff, float_of_int, delay.
  assert (2 ^ (a - 1) < 2 ^ 1024) as Hlt by (apply Z.pow_lt_mono_r; lia).
  apply Z.ltb_lt in Hlt. rewrite Hlt. reflexivity.
Qed.

Lemma backoff_overflow a : 1025 ≤ a → backoff a = Raise OverflowError.
Proof.
  intros Ha. unfold backoff, float_of_int.
  assert (2 ^ 1024 ≤ 2 ^ (a - 1)) as Hge by (apply Z.pow_le_mono_r; lia).
  apply Z.ltb_ge in Hge. rewrite Hge. reflexivity.
Qed.

Lemma retry_continue self a e :
  a < _retries self → a ≤ 1024 → retry self a e = Continue e (delay a).
Proof.
  intros Hlt Ha. unfold retry. apply Z.ltb_lt in Hlt. rewrite Hlt.
  by rewrite backoff_in_range.
Qed.

Lemma retry_last self a e : _retries self ≤ a → retry self a e = Raise_ e.
Proof. intros Hge. unfold retry. apply Z.ltb_ge in Hge. by rewrite Hge. Qed.

Lemma loop_body_retryable self a rep e :
  retryable_error rep = Some e → loop_body self a rep = retry self a e.
Proof.
  destruct rep as [r|e']; cbn; [|by intros [= ->]].
  destruct (ok r); cbn.
  - destruct (body r); [done|]. by intros [= <-].
  - destruct (error_body r) as [message code]; cbn.
    destruct ((400 <=? status_code r) && (status_code r <? 500)); [done|].
    by intros [= <-].
Qed.

Lemma server_failure_retryable rep :
  server_failure rep → retryable_error rep = Some (observed_error rep).
Proof.
  destruct rep as [r|e]; cbn; [|done]. intros [Hlo Hhi]. unfold ok.
  assert ((400 <=? status_code r) = true) as -> by lia.
  assert ((status_code r <? 600) = true) as -> by lia.
  assert ((status_code r <? 500) = false) as -> by lia.
  reflexivity.
Qed.

Lemma after_retries_0 self req attempts w : after_retries self req attempts 0 w = w.
Proof.
  destruct w as [s sl lg]. unfold after_retries; cbn.
  rewrite !app_nil_r. by destruct (_debug self).
Qed.

Lemma after_retries_S self req attempts m w :
  after_retries self req (attempts + 1) m
    (time_sleep (delay (attempts + 1)) (after_send self req w))
  = after_retries self req attempts (S m) w.
Proof.
  unfold after_retries, time_sleep, after_send; cbn. f_equal.
  - by rewrite <- app_assoc.
  - rewrite <- app_assoc. f_equal. cbn. f_equal.
    + f_equal. lia.
    + rewrite <- fmap_S_seq, <- list_fmap_compose.
      apply list_fmap_ext. intros _ i _. cbn. f_equal. lia.
  - destruct (_debug self); [|done]. by rewrite <- app_assoc.
Qed.

(** [m] failed attempts in a row, with attempts to spare afterwards: the
    loop sends [m] requests, sleeps after each one for the delay of its
    attempt number, and carries on. *)
Lemma request_loop_retries server self req :
  0 < req_timeout req →
  ∀ m fuel le attempts w,
    attempts + Z.of_nat m < _retries self →
    attempts + Z.of_nat m ≤ 1024 →
    (∀ i, (i < m)%nat →
          is_Some (retryable_error (server (length (sent w) + i)%nat req))) →
    request_loop server (m + fuel) self req le attempts w =
    request_loop server fuel self req
      (match m with
       | O => le
       | S m' => retryable_error (server (length (sent w) + m')%nat req)
       end)
      (attempts + Z.of_nat m) (after_retries self req attempts m w).
Proof.
  intros Htimeout.
  induction m as [|m IH]; intros fuel le attempts w Hlt Hrange Hfail.
  - rewrite after_retries_0. cbn. f_equal. lia.
  - cbn [Nat.add]. rewrite request_loop_step by first [exact Htimeout|lia].
    destruct (Hfail 0%nat) as [e He]; [lia|]. rewrite Nat.add_0_r in He.
    rewrite (loop_body_retryable _ _ _ e He), retry_continue by lia.
    rewrite IH; [|lia|lia|].
    + rewrite after_retries_S. f_equal; [|lia].
      destruct m as [|m]; cbn; rewrite ?length_app; cbn.
      * by rewrite Nat.add_0_r.
      * by replace (length (sent w) + 1 + m)%nat
          with (length (sent w) + S m)%nat by lia.
    + intros i Hi. cbn. rewrite length_app. cbn.
      replace (length (sent w) + 1 + i)%nat with (length (sent w) + S i)%nat
        by lia.
      apply Hfail. lia.
Qed.

Lemma length_sent_after_retries self req attempts m w :
  length (sent (after_retries self req attempts m w)) = (length (sent w) + m)%nat.
Proof. cbn. by rewrite length_app, length_replicate. Qed.

(** Every permitted attempt fails: the last failure is raised. *)
Lemma request_all_fail server self method endpoint payload w m :
  let req := build_request self method endpoint payload in
  0 < _timeout self →
  _retries self = Z.of_nat (S m) →
  _retries self ≤ 1025 →
  (∀ i, (i < S m)%nat →
        is_Some (retryable_error (server (length (sent w) + i)%nat req))) →
  ∃ e,
    retryable_error (server (length (sent w) + m)%nat req) = Some e
    ∧ _request server self method endpoint payload w
      = Some (Raise e, after_send self req (after_retries self req 0 m w)).
Proof.
  intros req Htimeout Hretries Hrange Hfail.
  destruct (Hfail m) as [e He]; [lia|]. exists e. split; [done|].
  unfold _request. fold req.
  replace (Z.to_nat (_retries self)) with (m + 1)%nat by lia.
  rewrite request_loop_retries; [|done|lia|lia|intros; apply Hfail; lia].
  rewrite request_loop_step by first [exact Htimeout|lia].
  rewrite length_sent_after_retries.
  by rewrite (loop_body_retryable _ _ _ e He), retry_last by lia.
Qed.

(** [k] failures and then a success with a JSON body: the body is
    returned at once. *)
Lemma request_succeeds_after_failures server self method endpoint payload w
    k r j :
  let req := build_request self method endpoint payload in
  0 < _timeout self →
  Z.of_nat k < _retries self →
  Z.of_nat k ≤ 1024 →
  (∀ i, (i < k)%nat →
        is_Some (retryable_error (server (length (sent w) + i)%nat req))) →
  server (length (sent w) + k)%nat req = Replied r →
  ok r = true →
  body r = Some j →
  _request server self method endpoint payload w
    = Some (Ok j, after_send self req (after_retries self req 0 k w)).
Proof.
  intros req Htimeout Hk Hrange Hfail Hr Hok Hbody.
  unfold _request. fold req.
  replace (Z.to_nat (_retries self))
    with (k + S (Z.to_nat (_retries self) - S k))%nat by lia.
  rewrite request_loop_retries; [|done|lia|lia|done].
  rewrite request_loop_step by first [exact Htimeout|lia].
  rewrite length_sent_after_retries, Hr. cbn. by rewrite Hok, Hbody.
Qed.

(** 1025 failures with attempts to spare: the delay after the 1025th
    cannot be computed and [OverflowError] leaves [_request]. *)
Lemma request_overflows server self method endpoint payload w :
  let req := build_request self method endpoint payload in
  0 < _timeout self →
  1026 ≤ _retries self →
  (∀ i, (i < 1025)%nat →
        is_Some (retryable_error (server (length (sent w) + i)%nat req))) →
  _request server self method endpoint payload w
    = Some (Raise OverflowError,
            after_send self req (after_retries self req 0 1024 w)).
Proof.
  intros req Htimeout Hretries Hfail.
  unfold _request. fold req.
  replace (Z.to_nat (_retries self))
    with (1024 + S (Z.to_nat (_retries self) - 1025))%nat by lia.
  rewrite request_loop_retries; [|done|lia|lia|intros; apply Hfail; lia].
  rewrite request_loop_step by first [exact Htimeout|lia].
  rewrite length_sent_after_retries.
  destruct (Hfail 1024%nat) as [e He]; [lia|].
  rewrite (loop_body_retryable _ _ _ e He). unfold retry.
  change (0 + Z.of_nat 1024 + 1) with 1025.
  assert ((1025 <? _retries self) = true) as -> by lia.
  by rewrite backoff_overflow by lia.
Qed.

Lemma sent_after_send_retries self req attempts m w :
  sent (after_send self req (after_retries self req attempts m w))
  = sent w ++ replicate (S m) req.
Proof. rewrite replicate_S_end. cbn. by rewrite app_assoc. Qed.

(** The scenario of [test_retry_on_5xx]: 503, 503, 200 with
    [retries = 3] is three requests, two sleeps and the parsed body. *)
Example test_retry_on_5xx :
  _request (flaky 2 empty_page) (test_client 3) "GET" "/v1/search?q=test"
    None idle
  = Some (Ok (JDict {[ "data" := JList [];
                       "meta" := JDict {[ "total" := JInt 0; "page" := JInt 1;
                                          "per_page" := JInt 10 ]} ]}),
          {| sent := replicate 3 (build_request (test_client 3) "GET"
                                    "/v1/search?q=test" None);
             slept := [delay 1; delay 2];
             logged := [] |}).
Proof. reflexivity. Qed.

(** C2, amended.  With [retries] between 1 and 1025, a call whose every
    attempt meets a 5xx response or a transport failure makes exactly
    [retries] attempts and raises the error of the last one: the
    [SolvrError] of the last response, or the transport exception. *)
Theorem C2_retries_exhausted server self method endpoint payload w :
  1 ≤ _retries self ≤ 1025 →
  retries_exhausted server self method endpoint payload w.
Proof.
  intros [Hlo Hhi]. unfold retries_exhausted. intros Htimeout Hfail.
  set (req := build_request self method endpoint payload) in *.
  set (m := Z.to_nat (_retries self - 1)).
  destruct (request_all_fail server self method endpoint payload w m)
    as (e & He & Hrun); [done|lia|lia| |].
  { intros i Hi. rewrite server_failure_retryable; [done|].
    apply Hfail. lia. }
  exists (after_send self req (after_retries self req 0 m w)), m.
  split; [lia|]. split; [|apply sent_after_send_retries].
  rewrite Hrun. fold req in He.
  rewrite server_failure_retryable in He by (apply Hfail; lia).
  by injection He as <-.
Qed.

(** The scenario of [test_fail_after_max_retries]: 503 twice with
    [retries = 2]. *)
Lemma C2_witness :
  ∃ w' last,
    Z.of_nat (S last) = 2
    ∧ _request (λ _ _, Replied unavailable) (test_client 2) "GET"
        "/v1/search?q=test" None idle
      = Some (Raise (observed_error (Replied unavailable)), w')
    ∧ sent w' = sent idle
                ++ replicate (S last) (build_request (test_client 2) "GET"
                                         "/v1/search?q=test" None).
Proof.
  apply (C2_retries_exhausted (λ _ _, Replied unavailable) (test_client 2)
           "GET" "/v1/search?q=test" None idle).
  - simpl. lia.
  - reflexivity.
  - intros i _. simpl. lia.
Defined.

(** C2 as stated fails when [retries] is not positive.  With
    [retries = 0] nothing is sent, so there is no last attempt whose error
    could be raised, and the call raises the plain exception instead; with
    [retries = -1] the number of attempts, zero, is not even [retries]. *)
Lemma C2_counterexample :
  (_request (λ _ _, Replied unavailable) (test_client 0) "GET"
     "/v1/search?q=test" None idle
   = Some (Raise (Exception "Request failed after retries"), idle)
   ∧ ¬ retries_exhausted (λ _ _, Replied unavailable) (test_client 0) "GET"
         "/v1/search?q=test" None idle)
  ∧ (attempts_made (λ _ _, Replied unavailable) (test_client (-1)) "GET"
       "/v1/search?q=test" None idle = 0%nat
     ∧ ¬ retries_exhausted (λ _ _, Replied unavailable) (test_client (-1))
           "GET" "/v1/search?q=test" None idle).
Proof.
  split; (split; [reflexivity|]).
  - intros Hclaim. destruct Hclaim as (w' & last & Hcount & _).
    + reflexivity.
    + intros i Hi. simpl in Hi. lia.
    + simpl in Hcount. lia.
  - intros Hclaim. destruct Hclaim as (w' & last & Hcount & _).
    + reflexivity.
    + intros i Hi. simpl in Hi. lia.
    + simpl in Hcount. lia.
Qed.

(** *** The delays *)

Lemma min2_le_r x y : (min2 x y <= y)%Q.
Proof.
  unfold min2. destruct (Qle_bool x y) eqn:Hxy.
  - by apply Qle_bool_iff.
  - apply Qle_refl.
Qed.

Lemma min2_mono x x' y : (x <= x')%Q → (min2 x y <= min2 x' y)%Q.
Proof.
  intros Hle. unfold min2.
  destruct (Qle_bool x y) eqn:Hxy, (Qle_bool x' y) eqn:Hx'y.
  - done.
  - by apply Qle_bool_iff.
  - assert (¬ (x <= y)%Q) as Hnot by (rewrite <- Qle_bool_iff, Hxy; done).
    apply Qnot_le_lt, Qlt_le_weak in Hnot. by eapply Qle_trans.
  - apply Qle_refl.
Qed.

(** Within the range where it is computed, the delay never exceeds five
    seconds and never decreases from one attempt to the next. *)
Lemma delay_capped a : (delay a <= inject_Z 5)%Q.
Proof. apply min2_le_r. Qed.

Lemma delay_monotone a b : a ≤ b → (delay a <= delay b)%Q.
Proof.
  intros Hab. unfold delay. apply min2_mono.
  apply Qmult_le_l; [done|]. rewrite <- Zle_Qle.
  apply Z.pow_le_mono_r; lia.
Qed.

(** The first delays are 0.1, 0.2, 0.4, ... seconds (in doubles) and the
    seventh is the cap. *)
Example delay_values :
  delay 1 = float_0_1
  ∧ (delay 2 == 2 * float_0_1)%Q
  ∧ (delay 6 == 32 * float_0_1)%Q
  ∧ delay 7 = inject_Z 5.
Proof. by split_and!. Qed.

(** The loop only ever adds sleeps. *)
Lemma request_loop_slept server self req fuel :
  ∀ le attempts w out w',
    request_loop server fuel self req le attempts w = Some (out, w') →
    ∃ rest, slept w' = slept w ++ rest.
Proof.
  induction fuel as [|fuel IH]; intros le attempts w out w' Hrun.
  - destruct (Z.lt_ge_cases attempts (_retries self)) as [Hlt|Hge].
    + cbn [request_loop] in Hrun. apply Z.ltb_lt in Hlt.
      rewrite Hlt in Hrun. discriminate.
    + rewrite request_loop_stop in Hrun by done. simplify_eq.
      exists []. by rewrite app_nil_r.
  - destruct (Z.lt_ge_cases attempts (_retries self)) as [Hlt|Hge].
    + destruct (Z.lt_ge_cases 0 (req_timeout req)) as [Hpos|Hneg].
      * rewrite request_loop_step in Hrun by done.
        destruct (loop_body _ _ _) as [j|e|e d].
        -- simplify_eq. exists []. cbn. by rewrite app_nil_r.
        -- simplify_eq. exists []. cbn. by rewrite app_nil_r.
        -- apply IH in Hrun as [rest Hrest]. exists (d :: rest).
           rewrite Hrest. cbn. by rewrite <- app_assoc.
      * rewrite request_loop_refused in Hrun by done. simplify_eq.
        exists []. cbn. by rewrite app_nil_r.
    + rewrite request_loop_stop in Hrun by done. simplify_eq.
      exists []. by rewrite app_nil_r.
Qed.

(** Up to attempt 1024 the schedule is the specified one: when the first
    [a] attempts fail and attempts are left, the sleeps of the call begin
    with [delay 1], ..., [delay a], the sleep after attempt [i] being
    [min(0.1 * 2^(i-1), 5)]. *)
Lemma sleeps_after_failed_attempts server self method endpoint payload w a :
  let req := build_request self method endpoint payload in
  0 < _timeout self →
  Z.of_nat a < _retries self →
  Z.of_nat a ≤ 1024 →
  (∀ i, (i < a)%nat →
        is_Some (retryable_error (server (length (sent w) + i)%nat req))) →
  ∃ out w' rest,
    _request server self method endpoint payload w = Some (out, w')
    ∧ slept w'
      = slept w ++ ((λ i, delay (0 + 1 + Z.of_nat i)) <$> seq 0 a) ++ rest.
Proof.
  intros req Htimeout Ha Hrange Hfail.
  destruct (_request_total server self method endpoint payload w)
    as (out & w' & Hrun).
  exists out, w'. rewrite Hrun. unfold _request in Hrun. fold req in Hrun.
  replace (Z.to_nat (_retries self))
    with (a + (Z.to_nat (_retries self) - a))%nat in Hrun by lia.
  rewrite request_loop_retries in Hrun; [|done|lia|lia|done].
  apply request_loop_slept in Hrun as [rest Hrest].
  exists rest. split; [done|]. rewrite Hrest. cbn. by rewrite <- app_assoc.
Qed.

(** C3 at the failing input: [retries = 1026] against a server that keeps
    answering 503.  After the 1025th failure the delay is not computed:
    [2 ** 1024] does not convert to a float, [OverflowError] leaves
    [_request], no sleep follows and attempt 1026 is never made. *)
Theorem C3_backoff_overflows_at_attempt_1025 :
  ∃ w',
    _request (λ _ _, Replied unavailable) (test_client 1026) "GET"
      "/v1/search?q=test" None idle
    = Some (Raise OverflowError, w')
    ∧ length (sent w') = 1025%nat
    ∧ length (slept w') = 1024%nat
    ∧ backoff 1025 = Raise OverflowError.
Proof.
  eexists. split; [|split_and!].
  - apply request_overflows; [reflexivity|simpl; lia|]. intros i _. by eexists.
  - by rewrite sent_after_send_retries, length_app, length_replicate.
  - unfold after_send, after_retries. cbn [slept idle].
    by rewrite length_app, length_fmap, length_seq.
  - by apply backoff_overflow.
Qed.

(** C4 at the failing input: [retries = 1026], 1025 answers 503 and then a
    200 with a JSON body.  The success on attempt 1026 is never reached:
    the call raises [OverflowError] after attempt 1025. *)
Theorem C4_late_success_is_not_reached :
  flaky 1025 empty_page 1025%nat
    (build_request (test_client 1026) "GET" "/v1/search?q=test" None)
  = Replied empty_page
  ∧ ∃ w',
      _request (flaky 1025 empty_page) (test_client 1026) "GET"
        "/v1/search?q=test" None idle
      = Some (Raise OverflowError, w')
      ∧ length (sent w') = 1025%nat.
Proof.
  split; [reflexivity|]. eexists. split.
  - apply request_overflows; [reflexivity|simpl; lia|]. intros i Hi.
    unfold flaky. cbn [idle sent length Nat.add].
    apply Nat.ltb_lt in Hi. rewrite Hi. by eexists.
  - by rewrite sent_after_send_retries, length_app, length_replicate.
Qed.

(** *** Malformed error bodies *)

Lemma same_error_refl e : same_error e e.
Proof. by destruct e. Qed.

Lemma same_step_refl a : same_step a a.
Proof. destruct a; cbn; auto using same_error_refl. Qed.

Lemma retry_same self attempts e e' :
  same_error e e' → same_step (retry self attempts e) (retry self attempts e').
Proof.
  intros He. unfold retry.
  destruct (attempts <? _retries self); [|done].
  destruct (backoff attempts); cbn; auto using same_error_refl.
Qed.

Lemma ok_same_status r1 r2 : status_code r1 = status_code r2 → ok r1 = ok r2.
Proof. unfold ok. by intros ->. Qed.

(** The decision of one pass depends on a failed response through its
    status only. *)
Lemma loop_body_same self attempts a b :
  same_but_error_body a b →
  same_step (loop_body self attempts a) (loop_body self attempts b).
Proof.
  destruct a as [r1|e1], b as [r2|e2]; cbn; try done.
  - intros [Hstatus Hbody]. rewrite <- (ok_same_status r1 r2 Hstatus).
    destruct (ok r1); cbn.
    + rewrite <- Hbody by done. apply same_step_refl.
    + destruct (error_body r1) as [m1 c1], (error_body r2) as [m2 c2].
      rewrite <- Hstatus.
      destruct ((400 <=? status_code r1) && (status_code r1 <? 500)).
      * done.
      * by apply retry_same.
  - intros ->. apply same_step_refl.
Qed.

Lemma request_loop_same server server' self req fuel :
  (∀ n q, same_but_error_body (server n q) (server' n q)) →
  ∀ le le' attempts w,
    _retries self - attempts ≤ Z.of_nat fuel →
    same_error (default (Exception "Request failed after retries") le)
      (default (Exception "Request failed after retries") le') →
    ∃ out out' w',
      request_loop server fuel self req le attempts w = Some (out, w')
      ∧ request_loop server' fuel self req le' attempts w = Some (out', w')
      ∧ same_outcome out out'.
Proof.
  intros Hsame. induction fuel as [|fuel IH]; intros le le' attempts w Hfuel Hle.
  - rewrite !request_loop_stop by lia. by eexists _, _, _.
  - destruct (Z.lt_ge_cases attempts (_retries self)) as [Hlt|Hge];
      [|rewrite !request_loop_stop by done; by eexists _, _, _].
    destruct (Z.lt_ge_cases 0 (req_timeout req)) as [Hpos|Hneg];
      [|rewrite !request_loop_refused by done; by eexists _, _, _].
    rewrite !request_loop_step by done.
    pose proof (loop_body_same self (attempts + 1) _ _
                  (Hsame (length (sent w)) req)) as Hstep.
    destruct (loop_body self (attempts + 1) (server (length (sent w)) req)),
      (loop_body self (attempts + 1) (server' (length (sent w)) req));
      cbn in Hstep; try done.
    + by eexists _, _, _.
    + by eexists _, _, _.
    + destruct Hstep as [He ->]. apply IH; [lia|done].
Qed.

(** C6.  A response that is not [ok] and whose body does not parse, or
    parses to something without an error object, yields the error with the
    message [API error: <status>] and no code.  Nothing but the status of a
    failed response decides what the call does: against two servers whose
    replies differ only in the bodies of failed responses, [_request] sends
    the same requests, sleeps the same delays and ends the same way, with
    the same result or an error of the same kind and status. *)
Theorem C6_malformed_error_body server server' self method endpoint payload w r :
  ok r = false →
  malformed r = true →
  (∀ n q, same_but_error_body (server n q) (server' n q)) →
  error_body r = (JStr ("API error: " +:+ str_of_int (status_code r)), JNull)
  ∧ (∀ attempts r',
       status_code r' = status_code r →
       same_step (loop_body self attempts (Replied r))
         (loop_body self attempts (Replied r')))
  ∧ ∃ out out' w',
      _request server self method endpoint payload w = Some (out, w')
      ∧ _request server' self method endpoint payload w = Some (out', w')
      ∧ same_outcome out out'.
Proof.
  intros Hok Hmalformed Hsame. split_and!.
  - by apply error_body_malformed.
  - intros attempts r' Hstatus. apply loop_body_same. cbn.
    split; [done|]. by rewrite Hok.
  - unfold _request. apply request_loop_same; [done|lia|done].
Qed.

(** [test_non_json_error]: a 500 with a text body and [retries = 1],
    compared with a 500 that carries a JSON error. *)
Lemma C6_witness :
  error_body internal_error = (JStr ("API error: " +:+ str_of_int 500), JNull)
  ∧ (∀ attempts r',
       status_code r' = 500 →
       same_step (loop_body (test_client 1) attempts (Replied internal_error))
         (loop_body (test_client 1) attempts (Replied r')))
  ∧ ∃ out out' w',
      _request (λ _ _, Replied internal_error) (test_client 1) "GET"
        "/v1/posts/post_123" None idle = Some (out, w')
      ∧ _request (λ _ _, Replied internal_error_json) (test_client 1) "GET"
          "/v1/posts/post_123" None idle = Some (out', w')
      ∧ same_outcome out out'.
Proof.
  apply (C6_malformed_error_body (λ _ _, Replied internal_error)
           (λ _ _, Replied internal_error_json) (test_client 1) "GET"
           "/v1/posts/post_123" None idle internal_error).
  - reflexivity.
  - reflexivity.
  - intros n q. simpl. split; [reflexivity|]. intros Hok. discriminate Hok.
Defined.

(** *** Parsing a post *)

Lemma subscript_dict d k v : d !! k = Some v → subscript (JDict d) k = Ok v.
Proof. intros H. cbn. by rewrite H. Qed.

Lemma has_keys_dict keys v :
  has_keys keys v = true →
  ∃ d, v = JDict d ∧ Forall (λ k, is_Some (d !! k)) keys.
Proof.
  destruct v as [| | | | | |d]; cbn; try done. intros H. exists d.
  split; [done|]. apply Forall_forall. intros k Hk.
  rewrite forallb_forall in H. apply list_elem_of_In, H in Hk.
  by apply bool_decide_eq_true in Hk.
Qed.

Lemma parse_author_wf v :
  author_wf v = true → ∃ a, _parse_author v = Ok a.
Proof.
  unfold author_wf, _parse_author. destruct (truthy v); cbn; [|by eexists].
  intros (d & -> & Hkeys)%has_keys_dict.
  apply Forall_cons in Hkeys as [[x1 H1] Hkeys].
  apply Forall_cons in Hkeys as [[x2 H2] Hkeys].
  apply Forall_cons in Hkeys as [[x3 H3] _].
  rewrite (subscript_dict _ _ _ H1), (subscript_dict _ _ _ H2),
    (subscript_dict _ _ _ H3). by eexists.
Qed.

Lemma author_of_wf v :
  author_field_wf v = true →
  ∃ a, author_of v = Ok a
       ∧ ∀ d, v = JDict d → d !! "author" = None → a = None.
Proof.
  destruct v as [| | | | | |d]; cbn; try done. intros Hwf.
  unfold author_of. cbn.
  destruct (d !! "author") as [v|] eqn:Hv; cbn in *.
  - destruct (truthy v) eqn:Htruthy.
    + destruct (parse_author_wf v Hwf) as [a Ha]. exists a.
      split; [done|]. intros ? [= <-]. by rewrite Hv.
    + exists None. split; [done|]. intros ? [= <-]. by rewrite Hv.
  - exists None. by split.
Qed.

Lemma comprehension_ok {A} (f : json → res A) l :
  Forall (λ x, ∃ y, f x = Ok y) l → ∃ ys, comprehension f l = Ok ys.
Proof.
  induction 1 as [|x l [y Hy] _ [ys Hys]]; cbn; [by eexists|].
  rewrite Hy; cbn. rewrite Hys; cbn. by eexists.
Qed.

Lemma parsed_list_wf {A} (parse : json → res A) item_wf d key :
  (∀ v, item_wf v = true → ∃ y, parse v = Ok y) →
  list_wf item_wf (default JNull (d !! key)) = true →
  ∃ l, parsed_list parse (JDict d) key = Ok l ∧ (d !! key = None → l = None).
Proof.
  intros Hitem Hwf. unfold parsed_list, list_wf in *. cbn.
  destruct (d !! key) as [v|] eqn:Hv; cbn in *; [|by exists None].
  destruct (truthy v); cbn in *; [|by exists None].
  destruct v as [| | | | |l|]; try done. cbn.
  destruct (comprehension_ok parse l) as [ys Hys].
  { apply Forall_forall. intros x Hx. apply Hitem.
    rewrite forallb_forall in Hwf. by apply Hwf, list_elem_of_In. }
  rewrite Hys. cbn. by eexists.
Qed.

Lemma parse_approach_wf v :
  approach_wf v = true → ∃ a, _parse_approach v = Ok a.
Proof.
  unfold approach_wf. intros [Hkeys Hauthor]%andb_true_iff.
  destruct (has_keys_dict _ _ Hkeys) as (d & -> & Hk).
  apply Forall_cons in Hk as [[x1 H1] Hk].
  apply Forall_cons in Hk as [[x2 H2] _].
  destruct (author_of_wf _ Hauthor) as (a & Ha & _).
  unfold _parse_approach.
  rewrite (subscript_dict _ _ _ H1), (subscript_dict _ _ _ H2).
  cbn -[author_of]. rewrite Ha. by eexists.
Qed.

Lemma parse_answer_wf v :
  answer_wf v = true → ∃ a, _parse_answer v = Ok a.
Proof.
  unfold answer_wf. intros [Hkeys Hauthor]%andb_true_iff.
  destruct (has_keys_dict _ _ Hkeys) as (d & -> & Hk).
  apply Forall_cons in Hk as [[x1 H1] Hk].
  apply Forall_cons in Hk as [[x2 H2] _].
  destruct (author_of_wf _ Hauthor) as (a & Ha & _).
  unfold _parse_answer.
  rewrite (subscript_dict _ _ _ H1), (subscript_dict _ _ _ H2).
  cbn -[author_of]. rewrite Ha. by eexists.
Qed.










(** *** The test suite, replayed *)

Example test_raise_without_api_key :
  __init__ "" DEFAULT_BASE_URL DEFAULT_TIMEOUT DEFAULT_RETRIES false
  = Raise (ValueError "API key is required").
Proof. reflexivity. Qed.

Example test_strip_trailing_slash :
  _base_url <$> __init__ "solvr_sk_test_key" "https://custom.api.com/" 30 3 false
  = Ok "https://custom.api.com".
Proof. reflexivity. Qed.

Example test_search_urls :
  urlencode (search_params "test query" None None None None) = "q=test+query"
  ∧ urlencode (search_params "test" (Some (Str "problem")) None (Some 5) (Some 2))
    = "q=test&type=problem&per_page=5&page=2"
  ∧ urlencode (search_params "test" (Some (Enum QUESTION)) None None None)
    = "q=test&type=question".
Proof. by split_and!. Qed.

Example test_api_error :
  fst <$> get_post
    (λ _ _, Replied
       {| status_code := 404;
          body := Some (JDict {[ "error" :=
                    JDict {[ "message" := JStr "Not found";
                             "code" := JStr "NOT_FOUND" ]} ]}) |})
    (test_client 1) "invalid_id" None idle
  = Some (Raise (SolvrError (JStr "Not found") 404 (JStr "NOT_FOUND"))).
Proof. reflexivity. Qed.

Example test_non_json_error :
  fst <$> get_post (λ _ _, Replied internal_error) (test_client 1) "post_123"
            None idle
  = Some (Raise (SolvrError (JStr "API error: 500") 500 JNull)).
Proof. reflexivity. Qed.

Example test_get_with_includes :
  (λ run, req_url <$> sent run.2)
    <$> get_post (λ _ _, Replied empty_page) (test_client 3) "post_123"
          (Some ["approaches"; "answers"]) idle
  = Some ["https://api.solvr.dev/v1/posts/post_123?include=approaches,answers"].
Proof. reflexivity. Qed.

End ClientProofs.

(** ** The provisioner *)

Module ProvisionProofs.
Import Provision ProvisionSpec.

(** How the primitive commands run in front of a continuation. *)
Lemma bind_print {A} (line : string) (k : unit → cmd A) w :
  (print line ≫= k) w = k () (with_console (console w ++ [line]) w).
Proof. reflexivity. Qed.

Lemma bind_read {A B} (f : state → A) (k : A → cmd B) w :
  (read f ≫= k) w = k (f w) w.
Proof. reflexivity. Qed.

Lemma bind_modify {A} (f : state → state) (k : unit → cmd A) w :
  (modify f ≫= k) w = k () (f w).
Proof. reflexivity. Qed.

Lemma bind_ret {A B} (a : A) (k : A → cmd B) w : (ret a ≫= k) w = k a w.
Proof. reflexivity. Qed.

Lemma bind_skip {A} (k : unit → cmd A) w : (skip ≫= k) w = k () w.
Proof. reflexivity. Qed.

Lemma bind_assoc {A B C} (m : cmd A) (f : A → cmd B) (g : B → cmd C) w :
  ((m ≫= f) ≫= g) w = (m ≫= λ a, f a ≫= g) w.
Proof.
  unfold mbind, cmd_bind. by destruct (m w) as [[a|e|c] w'].
Qed.

Lemma run_print line w :
  print line w = (Returned (), with_console (console w ++ [line]) w).
Proof. reflexivity. Qed.

(** Run the primitive commands at the head of the goal and flatten the
    state they leave. *)
Ltac flatten_state :=
  cbn [servers ssh_keys files instance_dirs console stdin slept ssh_probes
       with_servers with_ssh_keys with_files with_instance_dirs with_console
       with_stdin with_slept with_ssh_probes fst snd].

Ltac run_cmd :=
  repeat (first
    [ rewrite bind_print | rewrite bind_read | rewrite bind_modify
    | rewrite bind_ret | rewrite bind_skip | rewrite run_print
    | rewrite bind_assoc ];
    flatten_state).

Lemma get_client_token env w :
  has_token env = true → ∃ t, get_client env w = (Returned t, w).
Proof.
  unfold has_token, token, get_client.
  destruct (env_token env) as [t|]; [destruct (String.eqb t "") eqn:Ht|].
  - destruct (cli_token env) as [t'|]; [|done].
    destruct (String.eqb t' ""); [done|]. by eexists.
  - rewrite Ht. by eexists.
  - destruct (cli_token env) as [t'|]; [|done].
    destruct (String.eqb t' ""); [done|]. by eexists.
Qed.

(** Without a token the command prints the two lines of guidance and
    exits with status 1. *)
Lemma get_client_no_token env w :
  has_token env = false →
  get_client env w =
  (Exited 1,
   with_console
     (console w
      ++ ["ERROR: HCLOUD_TOKEN not set and no active hcloud context found";
          "Set HCLOUD_TOKEN or run: hcloud context create <name>"]) w).
Proof.
  unfold has_token, token, get_client.
  assert (∀ l1 l2 : string,
            (print l1;; print l2;; sys_exit 1 : cmd string) w
            = (Exited 1, with_console (console w ++ [l1; l2]) w)) as Hexit.
  { intros. run_cmd. unfold sys_exit, with_console; cbn.
    by rewrite <- app_assoc. }
  destruct (env_token env) as [t|]; [destruct (String.eqb t "") eqn:Ht|].
  - destruct (cli_token env) as [t'|]; [|by rewrite Hexit].
    destruct (String.eqb t' ""); [by rewrite Hexit|done].
  - by rewrite Ht.
  - destruct (cli_token env) as [t'|]; [|by rewrite Hexit].
    destruct (String.eqb t' ""); [by rewrite Hexit|done].
Qed.

Lemma bind_returned {A B} (m : cmd A) (k : A → cmd B) w a w' :
  m w = (Returned a, w') → (m ≫= k) w = k a w'.
Proof. intros H. unfold mbind, cmd_bind. by rewrite H. Qed.

Lemma bind_exited {A B} (m : cmd A) (k : A → cmd B) w c w' :
  m w = (Exited c, w') → (m ≫= k) w = (Exited c, w').
Proof. intros H. unfold mbind, cmd_bind. by rewrite H. Qed.

(** C7.  [provision] for a name the provider already has a server under
    changes nothing but the console: no server, no registered key, no
    local file, no instance directory is created or altered, and nothing
    is read from standard input or slept.  With a token configured the
    command returns after printing its banner, the line saying that the
    server exists and the line with its address. *)
Theorem C7_provision_existing_server env a w s :
  servers w !! name a = Some s →
  (cmd_provision env a w).2
    = with_console (console (cmd_provision env a w).2) w
  ∧ (has_token env = true →
     (cmd_provision env a w).1 = Returned ()
     ∧ ∃ banner,
         console (cmd_provision env a w).2
         = console w ++ banner
           ++ ["✓ Server '" +:+ name a +:+ "' already exists";
               "  IP: " +:+ server_ip s]).
Proof.
  intros Hs. unfold cmd_provision.
  destruct (has_token env) eqn:Htoken.
  - destruct (get_client_token env w Htoken) as [t Ht].
    rewrite (bind_returned _ _ _ _ _ Ht). run_cmd. rewrite Hs. run_cmd.
    split; [reflexivity|]. intros _. split; [done|].
    rewrite <- !app_assoc. by eexists [_; _; _; _; _; _; _; _].
  - rewrite (bind_exited _ _ _ _ _ (get_client_no_token env w Htoken)).
    split; [reflexivity|done].
Qed.

Lemma C7_witness :
  (cmd_provision some_env (ipfs_01_args false) one_server).2
    = with_console
        (console (cmd_provision some_env (ipfs_01_args false) one_server).2)
        one_server
  ∧ (has_token some_env = true →
     (cmd_provision some_env (ipfs_01_args false) one_server).1 = Returned ()
     ∧ ∃ banner,
         console (cmd_provision some_env (ipfs_01_args false) one_server).2
         = console one_server ++ banner
           ++ ["✓ Server '" +:+ name (ipfs_01_args false) +:+ "' already exists";
               "  IP: " +:+ server_ip ipfs_01]).
Proof.
  apply (C7_provision_existing_server some_env (ipfs_01_args false) one_server
           ipfs_01).
  reflexivity.
Defined.

(** C8.  [destroy] with a token configured, for a server the provider has
    under the given name, once confirmed (by the flag or by answering [y]):
    the command returns, the server is gone from the provider, the
    instance directory is gone if there was one, the registered key
    [solvr-<name>] is gone if there was one, and nothing else is touched
    at the provider or on disk. *)
Theorem C8_destroy_confirmed env a w s :
  has_token env = true →
  servers w !! name a = Some s →
  confirmed a w →
  (cmd_destroy env a w).1 = Returned ()
  ∧ servers (cmd_destroy env a w).2 = delete (name a) (servers w)
  ∧ instance_dirs (cmd_destroy env a w).2 = delete (name a) (instance_dirs w)
  ∧ ssh_keys (cmd_destroy env a w).2
    = delete ("solvr-" +:+ name a) (ssh_keys w)
  ∧ files (cmd_destroy env a w).2 = files w.
Proof.
  intros Htoken Hs Hconfirmed. unfold cmd_destroy.
  destruct (get_client_token env w Htoken) as [t Ht].
  rewrite (bind_returned _ _ _ _ _ Ht). run_cmd. rewrite Hs.
  match goal with
  | |- context [if _ then ?deletion else skip] => set (tail := deletion)
  end.
  assert (∀ w0 : state,
            servers w0 = servers w → instance_dirs w0 = instance_dirs w →
            ssh_keys w0 = ssh_keys w → files w0 = files w →
            (tail w0).1 = Returned ()
            ∧ servers (tail w0).2 = delete (name a) (servers w)
            ∧ instance_dirs (tail w0).2 = delete (name a) (instance_dirs w)
            ∧ ssh_keys (tail w0).2 = delete ("solvr-" +:+ name a) (ssh_keys w)
            ∧ files (tail w0).2 = files w) as Hdelete.
  { intros w0 Hservers Hdirs Hkeys Hfiles. subst tail. run_cmd.
    case_bool_decide as Hdir; run_cmd;
      (destruct (ssh_keys w0 !! ("solvr-" +:+ name a)) eqn:Hkey); run_cmd;
      rewrite ?Hservers, ?Hdirs, ?Hkeys, ?Hfiles in *;
      rewrite <- ?eq_None_not_Some in *;
      rewrite ?(delete_id (instance_dirs w)), ?(delete_id (ssh_keys w)) by done;
      done. }
  destruct (yes a) eqn:Hyes.
  - run_cmd. by apply Hdelete.
  - destruct Hconfirmed as [Hflag|(line & rest & Hstdin & Hlower)];
      [congruence|].
    unfold input. run_cmd. rewrite Hstdin. run_cmd. rewrite Hlower.
    rewrite String.eqb_refl. run_cmd. by apply Hdelete.
Qed.

Lemma C8_witness :
  (cmd_destroy some_env (ipfs_01_args false) one_server).1 = Returned ()
  ∧ servers (cmd_destroy some_env (ipfs_01_args false) one_server).2
    = delete (name (ipfs_01_args false)) (servers one_server)
  ∧ instance_dirs (cmd_destroy some_env (ipfs_01_args false) one_server).2
    = delete (name (ipfs_01_args false)) (instance_dirs one_server)
  ∧ ssh_keys (cmd_destroy some_env (ipfs_01_args false) one_server).2
    = delete ("solvr-" +:+ name (ipfs_01_args false)) (ssh_keys one_server)
  ∧ files (cmd_destroy some_env (ipfs_01_args false) one_server).2
    = files one_server.
Proof.
  apply (C8_destroy_confirmed some_env (ipfs_01_args false) one_server ipfs_01).
  - reflexivity.
  - reflexivity.
  - right. exists "Y", []. split; reflexivity.
Defined.

End ProvisionProofs.

(** ** Every run of [_request] *)

Module ClientRuns.
Import Client ClientSpec ClientRunSpec ClientProofs.

Lemma backoff_Ok a d : backoff a = Ok d → d = delay a ∧ a ≤ 1024.
Proof.
  unfold backoff, float_of_int, delay.
  destruct (2 ^ (a - 1) <? 2 ^ 1024) eqn:Hlt; cbn; [|done].
  intros [= <-]. split; [done|].
  apply Z.ltb_lt in Hlt. apply Z.pow_lt_mono_r_iff in Hlt; lia.
Qed.

Lemma backoff_Raise a e : backoff a = Raise e → e = OverflowError ∧ 1025 ≤ a.
Proof.
  intros Hraise. destruct (Z.le_gt_cases a 1024) as [Hle|Hgt].
  - by rewrite backoff_in_range in Hraise.
  - rewrite backoff_overflow in Hraise by lia. injection Hraise as <-.
    split; [done|lia].
Qed.

(** What [retry] can decide. *)
Lemma retry_cases self a e :
  (retry self a e = Continue e (delay a) ∧ a < _retries self ∧ a ≤ 1024)
  ∨ (retry self a e = Raise_ OverflowError ∧ a < _retries self ∧ 1025 ≤ a)
  ∨ (retry self a e = Raise_ e ∧ _retries self ≤ a).
Proof.
  unfold retry. destruct (a <? _retries self) eqn:Hlt.
  - apply Z.ltb_lt in Hlt. destruct (backoff a) as [d|e'] eqn:Hb.
    + apply backoff_Ok in Hb as [-> ?]. by left.
    + apply backoff_Raise in Hb as [-> ?]. right. by left.
  - apply Z.ltb_ge in Hlt. right. by right.
Qed.

(** A pass that goes on does so on a retryable error and sleeps for the
    delay of its attempt. *)
Lemma loop_body_Continue self a rep e d :
  loop_body self a rep = Continue e d →
  retryable_error rep = Some e ∧ d = delay a ∧ a < _retries self ∧ a ≤ 1024.
Proof.
  assert (∀ e0, retry self a e0 = Continue e d →
                e0 = e ∧ d = delay a ∧ a < _retries self ∧ a ≤ 1024) as Hretry.
  { intros e0 H. destruct (retry_cases self a e0) as [(Hr&?&?)|[(Hr&?&?)|(Hr&?)]];
      rewrite Hr in H; simplify_eq. done. }
  destruct rep as [r|e']; cbn.
  - destruct (ok r); cbn.
    + destruct (body r); [done|]. intros (<-&?&?&?)%Hretry. done.
    + destruct (error_body r) as [m c]; cbn.
      destruct ((400 <=? status_code r) && (status_code r <? 500)); [done|].
      intros (<-&?&?&?)%Hretry. done.
  - intros (<-&?&?&?)%Hretry. done.
Qed.

(** The shape of every run of the loop: no pass is made; or the timeout
    is not positive and the first call is refused; or the timeout is
    positive, [m] passes go on and one more ends the loop. *)
Lemma request_loop_shape server self req fuel :
  ∀ le attempts w out w',
    request_loop server fuel self req le attempts w = Some (out, w') →
    (w' = w ∧ _retries self ≤ attempts
     ∧ out = Raise (default (Exception "Request failed after retries") le))
    ∨ (req_timeout req ≤ 0 ∧ attempts < _retries self
       ∧ w' = after_send self req w
       ∧ out = Raise (timeout_refused (req_timeout req)))
    ∨ (0 < req_timeout req
       ∧ ∃ m,
           w' = after_send self req (after_retries self req attempts m w)
           ∧ attempts + Z.of_nat m < _retries self
           ∧ ((0 < m)%nat → attempts + Z.of_nat m ≤ 1024)
           ∧ (∀ i, (i < m)%nat →
                   is_Some (retryable_error
                              (server (length (sent w) + i)%nat req)))
           ∧ match loop_body self (attempts + Z.of_nat m + 1)
                     (server (length (sent w) + m)%nat req) with
             | Return_ j => out = Ok j
             | Raise_ e => out = Raise e
             | Continue _ _ => False
             end).
Proof.
  induction fuel as [|fuel IH]; intros le attempts w out w' Hrun.
  - destruct (Z.lt_ge_cases attempts (_retries self)) as [Hlt|Hge].
    + cbn [request_loop] in Hrun. apply Z.ltb_lt in Hlt.
      rewrite Hlt in Hrun. discriminate.
    + rewrite request_loop_stop in Hrun by done. simplify_eq. by left.
  - destruct (Z.lt_ge_cases attempts (_retries self)) as [Hlt|Hge];
      [|rewrite request_loop_stop in Hrun by done; simplify_eq; by left].
    right.
    destruct (Z.lt_ge_cases 0 (req_timeout req)) as [Hpos|Hneg]; cycle 1.
    { rewrite request_loop_refused in Hrun by done. simplify_eq. by left. }
    right. split; [done|]. rewrite request_loop_step in Hrun by done.
    destruct (loop_body self (attempts + 1) (server (length (sent w)) req))
      as [j|e|e d] eqn:Hbody.
    + simplify_eq. exists 0%nat. rewrite after_retries_0, Nat.add_0_r.
      change (Z.of_nat 0) with 0. rewrite Z.add_0_r, Hbody.
      split_and!; [done|lia|lia|intros; lia|done].
    + simplify_eq. exists 0%nat. rewrite after_retries_0, Nat.add_0_r.
      change (Z.of_nat 0) with 0. rewrite Z.add_0_r, Hbody.
      split_and!; [done|lia|lia|intros; lia|done].
    + apply loop_body_Continue in Hbody as (He & -> & Hlt' & Hrange).
      apply IH in Hrun
        as [(_ & Hge & _)
           |[(? & _)|(_ & m & -> & Hm & Hmrange & Hfail & Hlast)]];
        [lia|lia|].
      exists (S m). rewrite after_retries_S.
      split_and!; [done|lia|destruct m; lia| |].
      * intros [|i] Hi.
        -- rewrite Nat.add_0_r, He. by eexists.
        -- specialize (Hfail i). cbn in Hfail. rewrite length_app in Hfail.
           cbn in Hfail.
           replace (length (sent w) + S i)%nat
             with (length (sent w) + 1 + i)%nat by lia.
           apply Hfail. lia.
      * cbn in Hlast. rewrite length_app in Hlast. cbn in Hlast.
        replace (length (sent w) + S m)%nat
          with (length (sent w) + 1 + m)%nat by lia.
        by replace (attempts + Z.of_nat (S m) + 1)
          with (attempts + 1 + Z.of_nat m + 1) by lia.
Qed.

Lemma _request_shape server self method endpoint payload w :
  let req := build_request self method endpoint payload in
  ∃ out w',
    _request server self method endpoint payload w = Some (out, w')
    ∧ ((w' = w ∧ _retries self ≤ 0
        ∧ out = Raise (Exception "Request failed after retries"))
       ∨ (_timeout self ≤ 0 ∧ 0 < _retries self
          ∧ w' = after_send self req w
          ∧ out = Raise (timeout_refused (_timeout self)))
       ∨ (0 < _timeout self
          ∧ ∃ m,
              w' = after_send self req (after_retries self req 0 m w)
              ∧ Z.of_nat m < _retries self
              ∧ Z.of_nat m ≤ 1024
              ∧ match loop_body self (Z.of_nat m + 1)
                        (server (length (sent w) + m)%nat req) with
                | Return_ j => out = Ok j
                | Raise_ e => out = Raise e
                | Continue _ _ => False
                end)).
Proof.
  intros req.
  destruct (_request_total server self method endpoint payload w)
    as (out & w' & Hrun).
  exists out, w'. split; [done|]. unfold _request in Hrun.
  apply request_loop_shape in Hrun
    as [(-> & ? & ->)
       |[(? & ? & -> & ->)|(? & m & -> & ? & Hrange & _ & Hlast)]].
  - by left.
  - right. left. by split_and!.
  - right. right. split; [done|]. exists m.
    split_and!; [done|lia|destruct m; lia|done].
Qed.

Lemma schedule_after_retries m :
  (λ i, delay (0 + 1 + Z.of_nat i)) <$> seq 0 m = schedule m.
Proof.
  unfold schedule. apply list_fmap_ext. intros _ i _. f_equal. lia.
Qed.

(** One call sends the same request over and over, never more often than
    [retries] says (nor than 1025 times), and at least once when [retries]
    is positive. *)
Theorem request_sends_one_request_at_most_retries_times server self method
    endpoint payload w :
  ∃ out w' n,
    _request server self method endpoint payload w = Some (out, w')
    ∧ sent w' = sent w ++ replicate n (build_request self method endpoint payload)
    ∧ Z.of_nat n ≤ Z.max 0 (_retries self)
    ∧ (n ≤ 1025)%nat
    ∧ (n = 0%nat ↔ _retries self ≤ 0).
Proof.
  destruct (_request_shape server self method endpoint payload w)
    as (out & w' & Hrun
        & [(-> & ? & _)|[(? & ? & -> & _)|(_ & m & -> & ? & ? & _)]]).
  - exists out, w, 0%nat. cbn. rewrite app_nil_r. split_and!; [done|done|lia|lia|].
    split; [done|lia].
  - eexists out, _, 1%nat. split; [done|].
    split_and!; [done|lia|lia|]. split; [done|lia].
  - eexists out, _, (S m). split; [done|]. rewrite sent_after_send_retries.
    split_and!; [done|lia|lia|]. split; [done|lia].
Qed.

(** The delay of an attempt is positive. *)
Lemma delay_positive a : 1 ≤ a → (0 < delay a)%Q.
Proof.
  intros Ha. unfold delay, min2.
  destruct (Qle_bool _ _); [|done].
  apply Qmult_lt_0_compat; [done|].
  change 0%Q with (inject_Z 0). rewrite <- Zlt_Qlt.
  apply Z.pow_pos_nonneg; lia.
Qed.

Lemma schedule_bounds n :
  Forall (λ d, (0 < d)%Q ∧ (d <= inject_Z 5)%Q) (schedule n).
Proof.
  unfold schedule. apply Forall_fmap, Forall_forall. intros i _. cbn.
  split; [apply delay_positive; lia|apply delay_capped].
Qed.

(** One call sleeps between attempts only: after [n] requests it has slept
    [n - 1] times, never after the last request; the sleep after attempt
    [i] is [min(0.1 * 2^(i-1), 5)], more than zero and at most five
    seconds. *)
Theorem request_sleeps_between_attempts server self method endpoint payload w :
  ∃ out w' n,
    _request server self method endpoint payload w = Some (out, w')
    ∧ length (sent w') = (length (sent w) + n)%nat
    ∧ slept w' = slept w ++ schedule (n - 1)
    ∧ Forall (λ d, (0 < d)%Q ∧ (d <= inject_Z 5)%Q) (schedule (n - 1)).
Proof.
  destruct (_request_shape server self method endpoint payload w)
    as (out & w' & Hrun
        & [(-> & ? & _)|[(? & ? & -> & _)|(_ & m & -> & ? & ? & _)]]).
  - exists out, w, 0%nat. cbn. rewrite app_nil_r.
    split_and!; [done|lia|done|done].
  - eexists out, _, 1%nat. split; [done|]. cbn. rewrite length_app, app_nil_r.
    split_and!; [done|done|done].
  - eexists out, _, (S m). split; [done|].
    rewrite sent_after_send_retries, length_app, length_replicate.
    split_and!; [done| |apply schedule_bounds].
    cbn [after_send after_retries slept]. rewrite schedule_after_retries.
    by replace (S m - 1)%nat with m by lia.
Qed.

(** With [debug] off a call logs nothing; with [debug] on it logs the
    line [METHOD URL] once for each request it sends. *)
Theorem request_logs_each_attempt server self method endpoint payload w :
  ∃ out w' n,
    _request server self method endpoint payload w = Some (out, w')
    ∧ length (sent w') = (length (sent w) + n)%nat
    ∧ logged w'
      = logged w
        ++ (if _debug self
            then replicate n (debug_line (build_request self method endpoint
                                            payload))
            else []).
Proof.
  destruct (_request_shape server self method endpoint payload w)
    as (out & w' & Hrun
        & [(-> & ? & _)|[(? & ? & -> & _)|(_ & m & -> & ? & ? & _)]]).
  - exists out, w, 0%nat. cbn. rewrite Nat.add_0_r.
    split_and!; [done|done|]. destruct (_debug self); by rewrite app_nil_r.
  - eexists out, _, 1%nat. split; [done|]. cbn. rewrite length_app.
    split; [done|]. destruct (_debug self); [done|by rewrite app_nil_r].
  - eexists out, _, (S m). split; [done|].
    rewrite sent_after_send_retries, length_app, length_replicate.
    split; [done|]. unfold after_send, after_retries, debug_line.
    cbn [logged sent slept]. destruct (_debug self).
    + by rewrite replicate_S_end, app_assoc.
    + by rewrite app_nil_r.
Qed.






End ClientRuns.

(** ** The response parsers *)

Module ParserFacts.
Import Client ClientSpec ClientRunSpec ClientProofs.

Lemma bind_Ok {A B} (m : res A) (f : A → res B) b :
  m ≫= f = Ok b → ∃ a, m = Ok a ∧ f a = Ok b.
Proof. destruct m as [a|e]; cbn; [by exists a|done]. Qed.

Lemma fmap_Ok {A B} (f : A → B) (m : res A) b :
  f <$> m = Ok b → ∃ a, m = Ok a ∧ b = f a.
Proof. destruct m as [a|e]; cbn; [|done]. intros [= <-]. by exists a. Qed.

Lemma subscript_Ok v k x :
  subscript v k = Ok x → ∃ d, v = JDict d ∧ d !! k = Some x.
Proof.
  destruct v as [| | | | | |d]; cbn; try done.
  destruct (d !! k) eqn:Hk; [|done]. intros [= <-]. by exists d.
Qed.

Lemma get_default_Ok v k dflt x :
  get_default v k dflt = Ok x → ∃ d, v = JDict d ∧ x = default dflt (d !! k).
Proof. destruct v as [| | | | | |d]; cbn; try done. intros [= <-]. by exists d. Qed.

Lemma get_Ok v k x :
  get v k = Ok x → ∃ d, v = JDict d ∧ x = default JNull (d !! k).
Proof. apply get_default_Ok. Qed.

Lemma has_keys_intro d keys :
  Forall (λ k, is_Some (d !! k)) keys → has_keys keys (JDict d) = true.
Proof.
  intros H. cbn. apply forallb_forall. intros k Hk.
  apply bool_decide_eq_true. rewrite Forall_forall in H.
  by apply H, list_elem_of_In.
Qed.

(** Inverts one [x ← m; k] of a parser that returned. *)
Ltac skip_bind H :=
  let a := fresh "x" in
  let Ha := fresh "Hx" in
  apply bind_Ok in H as (a & Ha & H).

Tactic Notation "invert_bind" hyp(H) "as" ident(a) ident(Ha) :=
  apply bind_Ok in H as (a & Ha & H).

Lemma parse_author_truthy_inv v a :
  truthy v = true →
  _parse_author v = Ok a →
  ∃ d, v = JDict d
       ∧ a = Some (Author.mk (default JNull (d !! "id"))
                     (default JNull (d !! "type"))
                     (default JNull (d !! "display_name"))
                     (default JNull (d !! "avatar_url")))
       ∧ is_Some (d !! "id") ∧ is_Some (d !! "type")
       ∧ is_Some (d !! "display_name").
Proof.
  intros Htruthy H. unfold _parse_author in H. rewrite Htruthy in H.
  cbn [negb] in H. invert_bind H as x1 H1. invert_bind H as x2 H2.
  invert_bind H as x3 H3. invert_bind H as x4 H4. injection H as <-.
  apply subscript_Ok in H1 as (d & -> & Hid).
  apply subscript_Ok in H2 as (? & [= <-] & Hty).
  apply subscript_Ok in H3 as (? & [= <-] & Hdn).
  apply get_Ok in H4 as (? & [= <-] & ->).
  exists d. rewrite Hid, Hty, Hdn. by split_and!.
Qed.

Lemma parse_author_Ok_wf v a : _parse_author v = Ok a → author_wf v = true.
Proof.
  intros H. unfold author_wf.
  destruct (truthy v) eqn:Htruthy; [|done]. cbn.
  destruct (parse_author_truthy_inv _ _ Htruthy H) as (d & -> & _ & ? & ? & ?).
  apply has_keys_intro. by repeat constructor.
Qed.

(** [_parse_author] returns [None] on falsy input and nowhere else; on
    truthy input it succeeds exactly on an object with [id], [type] and
    [display_name], and the record holds the values of the object. *)
Theorem parse_author_exact v :
  (_parse_author v = Ok None ↔ truthy v = false)
  ∧ ((∃ a, _parse_author v = Ok a) ↔ author_wf v = true)
  ∧ (∀ a, _parse_author v = Ok (Some a) →
          ∃ d, v = JDict d
               ∧ d !! "id" = Some (Author.id a)
               ∧ d !! "type" = Some (Author.type a)
               ∧ d !! "display_name" = Some (Author.display_name a)
               ∧ Author.avatar_url a = default JNull (d !! "avatar_url")).
Proof.
  split_and!.
  - split.
    + intros H. destruct (truthy v) eqn:Htruthy; [|done].
      by destruct (parse_author_truthy_inv _ _ Htruthy H) as (? & _ & ? & _).
    + intros Hfalsy. unfold _parse_author. by rewrite Hfalsy.
  - split; [|apply parse_author_wf]. intros [a H].
    by eapply parse_author_Ok_wf.
  - intros a H. destruct (truthy v) eqn:Htruthy.
    + destruct (parse_author_truthy_inv _ _ Htruthy H)
        as (d & -> & [= ->] & [? Hid] & [? Hty] & [? Hdn]).
      exists d. cbn. by rewrite Hid, Hty, Hdn.
    + unfold _parse_author in H. by rewrite Htruthy in H.
Qed.

Lemma author_of_Ok_wf v a : author_of v = Ok a → author_field_wf v = true.
Proof.
  unfold author_of. intros H. invert_bind H as c Hc.
  apply get_Ok in Hc as (d & -> & ->). cbn.
  destruct (truthy (default JNull (d !! "author"))) eqn:Htruthy.
  - invert_bind H as c Hc. apply get_Ok in Hc as (? & [= <-] & ->).
    by eapply parse_author_Ok_wf.
  - unfold author_wf. by rewrite Htruthy.
Qed.

Lemma comprehension_Ok {A} (f : json → res A) l ys :
  comprehension f l = Ok ys → Forall2 (λ x y, f x = Ok y) l ys.
Proof.
  revert ys. induction l as [|x l IH]; intros ys H; cbn in H.
  - injection H as <-. constructor.
  - skip_bind H. skip_bind H. injection H as <-.
    constructor; [done|]. by apply IH.
Qed.

Lemma parsed_list_Ok_wf {A} (parse : json → res A) item_wf d key r :
  (∀ v y, parse v = Ok y → item_wf v = true) →
  (∀ s y, parse (JStr s) ≠ Ok y) →
  parsed_list parse (JDict d) key = Ok r →
  list_wf item_wf (default JNull (d !! key)) = true.
Proof.
  intros Hitem Hstr H. unfold parsed_list in H. cbn in H.
  unfold list_wf.
  destruct (d !! key) as [v|] eqn:Hkey; cbn in *; [|done].
  destruct (truthy v) eqn:Htruthy; [|done]. cbn.
  invert_bind H as items Hx. apply fmap_Ok in H as (ys & Hys & _).
  apply comprehension_Ok in Hys.
  destruct v as [| | | |s|l|d']; cbn in Hx; simplify_eq.
  - destruct s as [|c s]; [done|]. cbn in Hys.
    inversion Hys as [|? ? ? ? Hc _]; subst. by apply Hstr in Hc.
  - apply forallb_forall. intros v Hv. apply list_elem_of_In in Hv.
    apply list_elem_of_lookup in Hv as [i Hi].
    destruct (Forall2_lookup_l _ _ _ _ _ Hys Hi) as (y & _ & Hy).
    by eapply Hitem.
  - destruct (map_to_list d') as [|[k v] kvs] eqn:Hl.
    + apply map_to_list_empty_iff in Hl as ->. done.
    + cbn in Hys. inversion Hys as [|? ? ? ? Hc _]; subst.
      by apply Hstr in Hc.
Qed.

Lemma parse_approach_Ok_wf v a : _parse_approach v = Ok a → approach_wf v = true.
Proof.
  unfold _parse_approach. intros H.
  invert_bind H as x1 H1. apply subscript_Ok in H1 as (d & -> & Hid).
  skip_bind H. invert_bind H as x2 H2.
  apply subscript_Ok in H2 as (? & [= <-] & Hangle).
  do 8 skip_bind H. invert_bind H as au Hau.
  unfold approach_wf. apply andb_true_iff. split.
  - apply has_keys_intro. by repeat constructor.
  - by eapply author_of_Ok_wf.
Qed.

Lemma parse_answer_Ok_wf v a : _parse_answer v = Ok a → answer_wf v = true.
Proof.
  unfold _parse_answer. intros H.
  invert_bind H as x1 H1. apply subscript_Ok in H1 as (d & -> & Hid).
  skip_bind H. invert_bind H as x2 H2.
  apply subscript_Ok in H2 as (? & [= <-] & Hcontent).
  do 5 skip_bind H. invert_bind H as au Hau.
  unfold answer_wf. apply andb_true_iff. split.
  - apply has_keys_intro. by repeat constructor.
  - by eapply author_of_Ok_wf.
Qed.

Lemma parse_approach_not_str s a : _parse_approach (JStr s) ≠ Ok a.
Proof. done. Qed.

Lemma parse_answer_not_str s a : _parse_answer (JStr s) ≠ Ok a.
Proof. done. Qed.

Lemma parse_post_succeeds d :
  is_Some (d !! "id") → is_Some (d !! "type") → is_Some (d !! "title") →
  is_Some (d !! "description") → post_nested_wf d = true →
  ∃ p, _parse_post (JDict d) = Ok p.
Proof.
  intros [id Hid] [ty Hty] [title Htitle] [description Hdescription].
  unfold post_nested_wf.
  intros [[Hauthor Happroaches]%andb_true_iff Hanswers]%andb_true_iff.
  destruct (author_of_wf _ Hauthor) as (a & Ha & _).
  destruct (parsed_list_wf _parse_approach approach_wf d "approaches"
              parse_approach_wf Happroaches) as (aps & Haps & _).
  destruct (parsed_list_wf _parse_answer answer_wf d "answers"
              parse_answer_wf Hanswers) as (ans & Hans & _).
  unfold _parse_post.
  rewrite (subscript_dict _ _ _ Hid), (subscript_dict _ _ _ Hty),
    (subscript_dict _ _ _ Htitle), (subscript_dict _ _ _ Hdescription).
  cbn -[author_of parsed_list]. rewrite Ha.
  cbn -[author_of parsed_list]. rewrite Haps.
  cbn -[author_of parsed_list]. rewrite Hans. by eexists.
Qed.

(** [_parse_post] succeeds on exactly the JSON objects that have [id],
    [type], [title] and [description] and whose author, approaches and
    answers are absent, falsy or well formed; on anything else it raises.
    The post it returns never has comments. *)
Theorem parse_post_exact v :
  ((∃ p, _parse_post v = Ok p) ↔
   ∃ d, v = JDict d
        ∧ is_Some (d !! "id") ∧ is_Some (d !! "type")
        ∧ is_Some (d !! "title") ∧ is_Some (d !! "description")
        ∧ post_nested_wf d = true)
  ∧ ∀ p, _parse_post v = Ok p → Post.comments p = None.
Proof.
  split.
  - split.
    + intros [p H]. unfold _parse_post in H.
      invert_bind H as x1 H1. apply subscript_Ok in H1 as (d & -> & Hid).
      invert_bind H as x2 H2. apply subscript_Ok in H2 as (? & [= <-] & Hty).
      invert_bind H as x3 H3. apply subscript_Ok in H3 as (? & [= <-] & Htitle).
      invert_bind H as x4 H4.
      apply subscript_Ok in H4 as (? & [= <-] & Hdescription).
      do 7 skip_bind H. invert_bind H as au Hau. skip_bind H.
      skip_bind H. invert_bind H as aps Haps. invert_bind H as ans Hans.
      exists d. split_and!; [done|by eexists..|].
      unfold post_nested_wf. rewrite !andb_true_iff. split_and!.
      * by eapply author_of_Ok_wf.
      * eapply (parsed_list_Ok_wf _parse_approach);
          [apply parse_approach_Ok_wf|apply parse_approach_not_str|done].
      * eapply (parsed_list_Ok_wf _parse_answer);
          [apply parse_answer_Ok_wf|apply parse_answer_not_str|done].
    + intros (d & -> & ? & ? & ? & ? & ?). by apply parse_post_succeeds.
  - intros p H. unfold _parse_post in H.
    do 16 skip_bind H. by injection H as <-.
Qed.

(** What [_parse_post] raises on the required fields: [TypeError] on
    anything that is not an object, and on an object the [KeyError] of the
    first of [id], [type], [title], [description] that is missing. *)
Theorem parse_post_missing_field v :
  match v with
  | JDict d =>
      (d !! "id" = None → _parse_post v = Raise (KeyError "id"))
      ∧ (is_Some (d !! "id") → d !! "type" = None →
         _parse_post v = Raise (KeyError "type"))
      ∧ (is_Some (d !! "id") → is_Some (d !! "type") → d !! "title" = None →
         _parse_post v = Raise (KeyError "title"))
      ∧ (is_Some (d !! "id") → is_Some (d !! "type") →
         is_Some (d !! "title") → d !! "description" = None →
         _parse_post v = Raise (KeyError "description"))
  | _ => _parse_post v = Raise TypeError
  end.
Proof.
  destruct v as [| | | | | |d]; try done. unfold _parse_post. cbn.
  split_and!.
  - by intros ->.
  - by intros [? ->] ->.
  - by intros [? ->] [? ->] ->.
  - by intros [? ->] [? ->] [? ->] ->.
Qed.

Lemma comprehension_Forall2 {A} (f : json → res A) l ys :
  Forall2 (λ x y, f x = Ok y) l ys → comprehension f l = Ok ys.
Proof.
  induction 1 as [|x y l ys Hx _ IH]; cbn; [done|]. by rewrite Hx, IH.
Qed.

(** [_parse_search_response] on an object whose [data] is a list (or
    absent) and whose [meta] is an object (or absent): one result for each
    row, in the order of the rows; [total], [page] and [per_page] default
    to 0, 1 and 10; [took_ms] is read from [meta], not from the top of the
    response. *)
Theorem parse_search_response_rows d rows results m :
  default (JList []) (d !! "data") = JList rows →
  default (JDict ∅) (d !! "meta") = JDict m →
  Forall2 (λ row r, parse_search_result row = Ok r) rows results →
  _parse_search_response (JDict d)
  = Ok (SearchResponse.mk results
          (PaginationMeta.mk (default (JInt 0) (m !! "total"))
             (default (JInt 1) (m !! "page"))
             (default (JInt 10) (m !! "per_page"))
             (default JNull (m !! "has_more")))
          (default JNull (m !! "took_ms"))).
Proof.
  intros Hdata Hmeta Hrows. unfold _parse_search_response. cbn.
  rewrite Hdata. cbn. rewrite (comprehension_Forall2 _ _ _ Hrows). cbn.
  by rewrite Hmeta.
Qed.

Lemma parse_search_response_rows_witness :
  _parse_search_response (JDict search_basic_body)
  = Ok (SearchResponse.mk
          [SearchResult.mk (JStr "post_1") (JStr "problem") (JStr "Test Problem")
             JNull (JFloat (95 # 100)) JNull JNull None JNull JNull]
          (PaginationMeta.mk
             (default (JInt 0) (search_basic_meta !! "total"))
             (default (JInt 1) (search_basic_meta !! "page"))
             (default (JInt 10) (search_basic_meta !! "per_page"))
             (default JNull (search_basic_meta !! "has_more")))
          (default JNull (search_basic_meta !! "took_ms"))).
Proof.
  apply (parse_search_response_rows search_basic_body
           [JDict search_basic_row] _ search_basic_meta).
  - reflexivity.
  - reflexivity.
  - repeat constructor.
Defined.

(** An explicit [null] is not a missing key: a response whose [meta] is
    [null] makes [_parse_search_response] raise [AttributeError], and one
    whose [data] is [null] makes it raise [TypeError]. *)
Theorem parse_search_response_null d :
  (d !! "data" = Some JNull →
   _parse_search_response (JDict d) = Raise TypeError)
  ∧ (default (JList []) (d !! "data") = JList [] → d !! "meta" = Some JNull →
     _parse_search_response (JDict d) = Raise AttributeError).
Proof.
  unfold _parse_search_response. cbn. split.
  - by intros ->.
  - by intros -> ->.
Qed.

Lemma parse_search_response_null_witness :
  _parse_search_response (JDict {[ "data" := JNull ]}) = Raise TypeError
  ∧ _parse_search_response (JDict {[ "meta" := JNull ]}) = Raise AttributeError.
Proof.
  split.
  - apply (parse_search_response_null {[ "data" := JNull ]}). reflexivity.
  - apply (parse_search_response_null {[ "meta" := JNull ]}); reflexivity.
Defined.

End ParserFacts.

(** ** The public methods *)

Module MethodFacts.
Import Client ClientSpec ClientRunSpec ClientProofs.

(** An enumeration member and its string value are interchangeable:
    [search] (type and status filters), [post] and [vote] build the same
    call from either. *)
Theorem enum_member_or_its_value server self w query type status limit page
    title description tags success_criteria post_id :
  (∀ e, search server self query (Some (Enum e)) status limit page w
        = search server self query (Some (Str (PostType_value e))) status
            limit page w)
  ∧ (∀ e, search server self query type (Some (Enum e)) limit page w
          = search server self query type (Some (Str (PostStatus_value e)))
              limit page w)
  ∧ (∀ e, post server self (Enum e) title description tags success_criteria w
          = post server self (Str (PostType_value e)) title description tags
              success_criteria w)
  ∧ (∀ e, vote server self post_id (Enum e) w
          = vote server self post_id (Str (VoteDirection_value e)) w).
Proof. split_and!; intros []; reflexivity. Qed.

(** The query of [search] starts with [q] and goes on with at most one
    each of [type], [status], [per_page] and [page], in this order; no
    other key, in particular no [limit], is ever sent. *)
Theorem search_params_keys query type status limit page :
  head (search_params query type status limit page) = Some ("q", PStr query)
  ∧ sublist (search_params query type status limit page).*1 search_keys
  ∧ NoDup (search_params query type status limit page).*1.
Proof.
  assert (sublist (search_params query type status limit page).*1 search_keys)
    as Hsub.
  { unfold search_params, search_keys.
    destruct (type_filter type), (status_filter status), (nonzero limit),
      (nonzero page); simpl;
      repeat first [apply sublist_nil | apply sublist_skip | apply sublist_cons]. }
  split; [reflexivity|]. split; [exact Hsub|].
  apply (sublist_NoDup _ search_keys); [|exact Hsub].
  apply (bool_decide_unpack _). reflexivity.
Qed.

Lemma quote_plus_cons c s :
  unquote_plus (quote_plus (String c s)) = String c (unquote_plus (quote_plus s)).
Proof. by destruct c as [[] [] [] [] [] [] [] []]. Qed.

(** [quote_plus] loses nothing: reading [+] as a space and [%XY] as a
    byte gives the text back, so two texts with the same encoding are the
    same text. *)
Theorem quote_plus_round_trip s s' :
  unquote_plus (quote_plus s) = s
  ∧ (quote_plus s = quote_plus s' → s = s').
Proof.
  assert (∀ t, unquote_plus (quote_plus t) = t) as Hround.
  { induction t as [|c t IH]; [done|]. by rewrite quote_plus_cons, IH. }
  split; [done|]. intros Heq.
  by rewrite <- (Hround s), <- (Hround s'), Heq.
Qed.

Lemma append_nil_l s : "" +:+ s = s.
Proof. reflexivity. Qed.

Lemma append_cons c s t : String c s +:+ t = String c (s +:+ t).
Proof. reflexivity. Qed.

Lemma length_append (s t : string) :
  String.length (s +:+ t) = (String.length s + String.length t)%nat.
Proof.
  induction s as [|c s IH]; [done|].
  change (S (String.length (s +:+ t))
          = S (String.length s + String.length t)).
  by rewrite IH.
Qed.

Lemma not_nil_append_slash t : "" ≠ t +:+ "/".
Proof. by destruct t. Qed.

Lemma rstrip_slash_spec s :
  (∃ n, s = rstrip_slash s +:+ slashes n) ∧ ∀ t, rstrip_slash s ≠ t +:+ "/".
Proof.
  induction s as [|c s [[n Hn] Hend]]; cbn [rstrip_slash].
  - split; [by exists 0%nat|]. apply not_nil_append_slash.
  - destruct (rstrip_slash s) as [|c' r] eqn:Hr.
    + rewrite append_nil_l in Hn. destruct (Ascii.eqb c "/") eqn:Hc.
      * apply Ascii.eqb_eq in Hc as ->. split.
        -- exists (S n). by rewrite Hn.
        -- apply not_nil_append_slash.
      * apply Ascii.eqb_neq in Hc. split.
        -- exists n. by rewrite append_cons, append_nil_l, Hn.
        -- intros [|c'' t]; rewrite ?append_nil_l, ?append_cons.
           ++ by intros [= ?].
           ++ intros [= ? Ht]. by apply not_nil_append_slash in Ht.
    + split.
      * exists n. by rewrite append_cons, <- Hn.
      * intros [|c'' t]; rewrite ?append_nil_l, ?append_cons.
        -- by intros [= ? ?].
        -- intros [= ? Ht]. by apply Hend in Ht.
Qed.

(** [__init__] refuses an empty key and nothing else.  It stores the
    timeout, the number of retries and the debug flag as given, with no
    check on their range, and the base URL without its trailing slashes:
    the stored URL never ends in a slash and differs from the argument by
    trailing slashes only. *)
Theorem init_stores_arguments api_key base_url timeout retries debug :
  match __init__ api_key base_url timeout retries debug with
  | Ok self =>
      api_key ≠ ""
      ∧ _api_key self = api_key ∧ _timeout self = timeout
      ∧ _retries self = retries ∧ _debug self = debug
      ∧ (∃ n, base_url = _base_url self +:+ slashes n)
      ∧ ∀ t, _base_url self ≠ t +:+ "/"
  | Raise e => api_key = "" ∧ e = ValueError "API key is required"
  end.
Proof.
  unfold __init__. destruct (String.eqb api_key "") eqn:Hkey.
  - by apply String.eqb_eq in Hkey.
  - apply String.eqb_neq in Hkey. cbn.
    destruct (rstrip_slash_spec base_url) as [Hn Hend]. by split_and!.
Qed.

Lemma append_inv_tail (s t x : string) : s +:+ x = t +:+ x → s = t.
Proof.
  revert t. induction s as [|c s IH]; intros [|c' t] Heq.
  - done.
  - apply (f_equal String.length) in Heq.
    rewrite append_nil_l, length_append in Heq. cbn in Heq. lia.
  - apply (f_equal String.length) in Heq.
    rewrite append_nil_l, length_append in Heq. cbn in Heq. lia.
  - rewrite !append_cons in Heq. injection Heq as -> Heq.
    by rewrite (IH t Heq).
Qed.

(** The URL of a search gives the query back: two calls of [search] that
    differ in the query only never send the same URL, whatever the query
    contains. *)
Theorem search_url_determines_query query query' type status limit page :
  urlencode (search_params query type status limit page)
  = urlencode (search_params query' type status limit page) →
  query = query'.
Proof.
  unfold search_params, urlencode.
  generalize (from_option (λ t, [("type", PStr t)]) [] (type_filter type)
              ++ from_option (λ s, [("status", PStr s)]) []
                   (status_filter status)
              ++ from_option (λ n, [("per_page", PInt n)]) [] (nonzero limit)
              ++ from_option (λ n, [("page", PInt n)]) [] (nonzero page)).
  intros rest. cbn [app fmap list_fmap fst snd param_str].
  change (quote_plus "q") with "q".
  intros Heq. apply quote_plus_round_trip.
  destruct ((λ kv, quote_plus kv.1 +:+ "=" +:+ quote_plus (param_str kv.2))
              <$> rest) as [|y l]; cbn [join] in Heq.
  - rewrite !append_cons, !append_nil_l in Heq. by injection Heq.
  - rewrite !append_cons, !append_nil_l in Heq. injection Heq as Heq.
    by apply append_inv_tail in Heq.
Qed.

Lemma search_url_determines_query_witness : "a b&c" = "a b&c".
Proof.
  apply (search_url_determines_query "a b&c" "a b&c" None None (Some 5) None).
  reflexivity.
Defined.

End MethodFacts.

(** ** The provisioner: waiting, failing, composing *)

Module ProvisionFacts.
Import Provision ProvisionSpec ProvisionRest ProvisionRunSpec ProvisionProofs.

Lemma state_ext (w w' : state) :
  servers w = servers w' → ssh_keys w = ssh_keys w' → files w = files w' →
  instance_dirs w = instance_dirs w' → console w = console w' →
  stdin w = stdin w' → slept w = slept w' → ssh_probes w = ssh_probes w' →
  w = w'.
Proof. destruct w, w'; cbn; intros; by subst. Qed.

Lemma bind_raised {A B} (m : cmd A) (k : A → cmd B) w e w' :
  m w = (Raised e, w') → (m ≫= k) w = (Raised e, w').
Proof. intros H. unfold mbind, cmd_bind. by rewrite H. Qed.

Lemma failed_probes_le up from n : (failed_probes up from n ≤ n)%nat.
Proof.
  revert from. induction n as [|n IH]; intros from; cbn; [lia|].
  destruct (up from); [lia|]. specialize (IH (S from)). lia.
Qed.

Lemma failed_probes_lt up from n :
  (failed_probes up from n < n)%nat
  ↔ ∃ j, (j < n)%nat ∧ up (from + j)%nat = true.
Proof.
  revert from. induction n as [|n IH]; intros from; cbn.
  - split; [lia|]. intros (j & Hj & _). lia.
  - destruct (up from) eqn:Hup.
    + split; [|lia]. intros _. exists 0%nat. split; [lia|].
      by rewrite Nat.add_0_r.
    + rewrite <- Nat.succ_lt_mono, IH. split.
      * intros (j & Hj & Hj'). exists (S j). split; [lia|].
        by rewrite Nat.add_succ_r.
      * intros (j & Hj & Hj'). destruct j as [|j].
        { rewrite Nat.add_0_r in Hj'. congruence. }
        exists j. split; [lia|]. by rewrite Nat.add_succ_r in Hj'.
Qed.

(** The loop of [wait_for_ssh]: it probes until a probe succeeds or the
    retries are used up, and sleeps five seconds after every probe that
    failed.  What it prints depends on the probes only. *)
Lemma wait_loop_run env n i max_retries probes :
  let k := failed_probes (ssh_up env) probes n in
  ∃ lines, ∀ w,
    ssh_probes w = probes →
    wait_loop env n i max_retries w
    = (Returned (bool_decide (k < n)%nat),
       with_console (console w ++ lines)
         (with_slept (slept w ++ replicate k 5)
            (with_ssh_probes
               (probes + if bool_decide (k < n)%nat then S k else k) w))).
Proof.
  revert i probes.
  induction n as [|n IH]; intros i probes; cbn [failed_probes wait_loop].
  - exists []. intros w <-. cbn. unfold ret, mret, cmd_ret.
    apply pair_equal_spec. split; [done|].
    apply state_ext; cbn; rewrite ?app_nil_r; auto with lia.
  - destruct (ssh_up env probes) eqn:Hup.
    + exists ["✓ SSH ready"]. intros w <-. run_cmd. rewrite Hup. run_cmd.
      unfold ret, mret, cmd_ret. rewrite bool_decide_true by lia.
      apply pair_equal_spec. split; [done|].
      apply state_ext; cbn; rewrite ?app_nil_r; auto with lia.
    + pose proof (IH (i + 1) (S probes)) as Hrun. cbv zeta in Hrun.
      destruct Hrun as [lines Hrun]. eexists (_ :: lines). intros w <-.
      run_cmd. rewrite Hup. unfold time_sleep. run_cmd.
      rewrite Hrun by reflexivity. flatten_state.
      generalize (failed_probes (ssh_up env) (S (ssh_probes w)) n) as k.
      intros k. apply pair_equal_spec. split.
      * f_equal. apply bool_decide_ext. lia.
      * apply state_ext; flatten_state; auto.
        -- by rewrite <- app_assoc.
        -- by rewrite <- app_assoc.
        -- destruct (bool_decide_reflect (k < n)%nat);
             [rewrite bool_decide_true by lia
             |rewrite bool_decide_false by lia]; lia.
Qed.

Lemma wait_for_ssh_run env max_retries probes :
  let n := Z.to_nat max_retries in
  let k := failed_probes (ssh_up env) probes n in
  ∃ lines, ∀ ip key_path w,
    ssh_probes w = probes →
    wait_for_ssh env ip key_path max_retries w
    = (Returned (bool_decide (k < n)%nat),
       with_console (console w ++ lines)
         (with_slept (slept w ++ replicate k 5)
            (with_ssh_probes
               (probes + if bool_decide (k < n)%nat then S k else k) w))).
Proof.
  intros n k.
  pose proof (wait_loop_run env n 0 max_retries probes) as Hrun.
  cbv zeta in Hrun. destruct Hrun as [lines Hrun].
  eexists (_ :: lines). intros ip key_path w Hw.
  unfold wait_for_ssh. run_cmd. fold n. rewrite Hrun by exact Hw.
  flatten_state. apply pair_equal_spec. split; [done|].
  apply state_ext; flatten_state; auto. by rewrite <- app_assoc.
Qed.

(** [wait_for_ssh] always returns.  It probes at most [max_retries] times
    (not at all when that is zero or negative), stops at the first probe
    that succeeds and answers whether one did; it sleeps five seconds after
    every failed probe, the last one included, and touches neither the
    provider account nor a file nor standard input. *)
Theorem wait_for_ssh_gives_up env ip key_path max_retries w :
  ∃ ready failed w',
    wait_for_ssh env ip key_path max_retries w = (Returned ready, w')
    ∧ (ready = true
       ↔ ∃ j, (j < Z.to_nat max_retries)%nat
              ∧ ssh_up env (ssh_probes w + j)%nat = true)
    ∧ ssh_probes w' = (ssh_probes w + failed + if ready then 1 else 0)%nat
    ∧ (Z.of_nat (ssh_probes w' - ssh_probes w) <= Z.max 0 max_retries)
    ∧ (∀ j, (j < failed)%nat → ssh_up env (ssh_probes w + j)%nat = false)
    ∧ slept w' = slept w ++ replicate failed 5
    ∧ same_resources w w'
    ∧ stdin w' = stdin w.
Proof.
  pose proof (wait_for_ssh_run env max_retries (ssh_probes w)) as Hrun.
  cbv zeta in Hrun. destruct Hrun as [lines Hrun].
  specialize (Hrun ip key_path w eq_refl).
  set (n := Z.to_nat max_retries) in *.
  set (k := failed_probes (ssh_up env) (ssh_probes w) n) in *.
  assert (k ≤ n)%nat as Hle by apply failed_probes_le.
  exists (bool_decide (k < n)%nat), k. eexists. split; [exact Hrun|].
  flatten_state. repeat split; try done.
  - intros Hb. apply bool_decide_eq_true in Hb. by apply failed_probes_lt.
  - intros H. apply bool_decide_eq_true. by apply failed_probes_lt.
  - destruct (bool_decide (k < n)%nat); lia.
  - destruct (bool_decide_reflect (k < n)%nat); lia.
  - intros j Hj. destruct (ssh_up env (ssh_probes w + j)) eqn:Hup; [|done].
    exfalso. subst k.
    clear Hrun Hle. revert Hj Hup. generalize (ssh_probes w) as from.
    revert j. induction n as [|n IH]; intros j from; cbn; [lia|].
    destruct (ssh_up env from) eqn:Hfrom; [lia|].
    destruct j as [|j]; [rewrite Nat.add_0_r; congruence|].
    intros Hj Hup. apply (IH j (S from)); [lia|].
    by rewrite Nat.add_succ_r in Hup.
Qed.

(** *** Provisioning a server that is not there yet *)

Lemma generate_ssh_key_run env name fs :
  ∃ line, ∀ w,
    files w = fs →
    generate_ssh_key env name w
    = (match generated_files env name fs !! pub_path name with
       | Some text => Returned (key_path name, strip text)
       | None => Raised (FileNotFoundError (pub_path name))
       end,
       with_console (console w ++ [line])
         (with_files (generated_files env name fs) w)).
Proof.
  unfold generate_ssh_key, generated_files. fold (key_path name).
  fold (pub_path name).
  case_bool_decide as Hkey; eexists; intros w <-; run_cmd;
    rewrite ?bool_decide_true, ?bool_decide_false by done; run_cmd.
  - destruct (files w !! pub_path name); unfold ret, mret, cmd_ret, raise;
      (apply pair_equal_spec; split; [done|]; by apply state_ext).
  - match goal with
    | |- context [?fs !! pub_path name] => destruct (fs !! pub_path name)
    end; unfold ret, mret, cmd_ret, raise;
      (apply pair_equal_spec; split; [done|]; by apply state_ext).
Qed.

Ltac flatten_state_in H :=
  cbn [servers ssh_keys files instance_dirs console stdin slept ssh_probes
       with_servers with_ssh_keys with_files with_instance_dirs with_console
       with_stdin with_slept with_ssh_probes fst snd] in H.

Lemma cmd_provision_fresh env a w :
  has_token env = true →
  servers w !! name a = None →
  match generated_files env (name a) (files w) !! pub_path (name a) with
  | None =>
      ∃ w',
        cmd_provision env a w
        = (Raised (FileNotFoundError (pub_path (name a))), w')
        ∧ servers w' = servers w
        ∧ ssh_keys w' = ssh_keys w
        ∧ files w' = generated_files env (name a) (files w)
        ∧ instance_dirs w' = instance_dirs w
        ∧ slept w' = slept w
        ∧ stdin w' = stdin w
  | Some text =>
      ∃ srv k md failed w',
        cmd_provision env a w = (Returned (), w')
        ∧ servers w' = <[name a := srv]> (servers w)
        ∧ ssh_keys w' = <["solvr-" +:+ name a := k]> (ssh_keys w)
        ∧ files w' = generated_files env (name a) (files w)
        ∧ instance_dirs w'
          = <[name a := <["metadata.json" := JDict md]>
                          (default ∅ (instance_dirs w !! name a))]>
              (instance_dirs w)
        ∧ slept w' = slept w ++ 45 :: replicate failed 5
        ∧ stdin w' = stdin w
        ∧ k = default {| key_name := "solvr-" +:+ name a;
                         public_key := strip text |}
                (ssh_keys w !! ("solvr-" +:+ name a))
        ∧ (failed ≤ 10)%nat
        ∧ server_name srv = name a
        ∧ (server_id srv, server_ip srv) = assign env (name a)
        ∧ server_labels srv !! "managed-by" = Some "solvr-infra"
        ∧ server_labels srv !! "name" = Some (name a)
        ∧ server_ssh_keys srv = [key_name k]
        ∧ md !! "name" = Some (JStr (name a))
        ∧ md !! "ip" = Some (JStr (server_ip srv))
        ∧ md !! "hetzner_id" = Some (JInt (server_id srv))
        ∧ md !! "ssh_key_path" = Some (JStr (key_path (name a)))
        ∧ md !! "created_at" = Some (JStr (now env))
  end.
Proof.
  intros Htoken Hs.
  destruct (get_client_token env w Htoken) as [t Ht].
  destruct w as [sv ks fs ds co si sl pr]. flatten_state_in Hs. flatten_state.
  destruct (generate_ssh_key_run env (name a) fs) as [line Hgen].
  pose proof (wait_for_ssh_run env 10 pr) as Hwait.
  cbv zeta in Hwait. destruct Hwait as [waited Hwait].
  change (Z.to_nat 10) with 10%nat in Hwait.
  pose proof (failed_probes_le (ssh_up env) pr 10) as Hfailed.
  revert Hwait Hfailed.
  generalize (failed_probes (ssh_up env) pr 10).
  intros failed Hwait Hfailed.
  destruct (generated_files env (name a) fs !! pub_path (name a))
    as [text|] eqn:Hpub.
  - destruct (ks !! ("solvr-" +:+ name a)) as [k0|] eqn:Hkey;
      destruct (bool_decide (failed < 10)%nat) eqn:Hready;
      (destruct (or_else (purpose a) "ipfs" =? "ipfs")%string eqn:Hipfs);
      (eassert (cmd_provision env a _ = _) as Hrun;
       [ unfold cmd_provision; rewrite (bind_returned _ _ _ _ _ Ht);
         run_cmd; rewrite Hs;
         match goal with
         | |- context [mbind _ (generate_ssh_key env (name a)) ?w1] =>
             rewrite (bind_returned _ _ _ _ _ (Hgen w1 eq_refl))
         end;
         run_cmd; rewrite Hkey; run_cmd; rewrite Hipfs; unfold time_sleep;
         run_cmd;
         match goal with
         | |- context [mbind _ (wait_for_ssh env ?ip ?kp 10) ?w1] =>
             rewrite (bind_returned _ _ _ _ _ (Hwait ip kp w1 eq_refl))
         end;
         run_cmd; unfold save_metadata; run_cmd; reflexivity
       | rewrite Hrun; clear Hrun ]);
      match goal with
      | |- context [<[name a := ?s]> sv] => set (srv := s)
      end;
      match goal with
      | |- context [<["metadata.json" := JDict ?m]> _] => set (md := m)
      end;
      eexists srv, _, md, failed, _; (split; [reflexivity|]);
      flatten_state; repeat split; try done;
      try (by rewrite insert_id); try (by rewrite <- app_assoc);
      try (subst srv; cbn; by destruct (assign env (name a)));
      subst srv; cbn [server_labels]; by simplify_map_eq.
  - eassert (cmd_provision env a _ = _) as Hrun.
    { unfold cmd_provision. rewrite (bind_returned _ _ _ _ _ Ht).
      run_cmd. rewrite Hs.
      match goal with
      | |- context [mbind _ (generate_ssh_key env (name a)) ?w1] =>
          rewrite (bind_raised _ _ _ _ _ (Hgen w1 eq_refl))
      end.
      reflexivity. }
    rewrite Hrun. clear Hrun. eexists. split; [reflexivity|]. done.
Qed.

Lemma cmd_provision_existing env a w s :
  has_token env = true →
  servers w !! name a = Some s →
  ∃ lines, cmd_provision env a w
           = (Returned (), with_console (console w ++ lines) w).
Proof.
  intros Htoken Hs. unfold cmd_provision.
  destruct (get_client_token env w Htoken) as [t Ht].
  rewrite (bind_returned _ _ _ _ _ Ht). run_cmd. rewrite Hs. run_cmd.
  eexists [_; _; _; _; _; _; _; _; _; _].
  apply pair_equal_spec. split; [done|].
  apply state_ext; flatten_state; try done. by rewrite <- !app_assoc.
Qed.

Lemma append_suffix_ne (s t : string) : t ≠ "" → s ≠ s +:+ t.
Proof.
  intros Ht Heq. apply (f_equal String.length) in Heq.
  rewrite MethodFacts.length_append in Heq. destruct t; [done|].
  cbn in Heq. lia.
Qed.

(** Whether the private key was there or [ssh-keygen] wrote it, it is there
    afterwards. *)
Lemma generated_files_key env name fs :
  is_Some (generated_files env name fs !! key_path name).
Proof.
  unfold generated_files. case_bool_decide as Hkey; [done|].
  rewrite lookup_insert_ne, lookup_insert_eq; [by eexists|].
  intros Heq. symmetry in Heq. by apply append_suffix_ne in Heq.
Qed.

Lemma generated_files_keep env name fs p :
  p ≠ key_path name +:+ ".pub" →
  is_Some (fs !! p) →
  generated_files env name fs !! p = fs !! p.
Proof.
  intros Hp Hsome. unfold generated_files. case_bool_decide as Hkey; [done|].
  rewrite lookup_insert_ne by done.
  rewrite lookup_insert_ne; [done|]. by intros <-.
Qed.

(** A name with a file suffix: the public key is looked for where
    [ssh-keygen] did not write it. *)
Lemma generated_files_no_pub env name fs :
  fs !! pub_path name = None →
  (fs !! key_path name = None →
   pub_path name ≠ key_path name
   ∧ pub_path name ≠ key_path name +:+ ".pub") →
  generated_files env name fs !! pub_path name = None.
Proof.
  intros Hpub Hne. unfold generated_files. case_bool_decide as Hkey; [done|].
  rewrite <- eq_None_not_Some in Hkey. destruct (Hne Hkey) as [Hne1 Hne2].
  by rewrite !lookup_insert_ne.
Qed.

Lemma generated_files_pub env name fs :
  stem ("solvr_" +:+ name) = "solvr_" +:+ name →
  (fs !! key_path name = None ∨ is_Some (fs !! (key_path name +:+ ".pub"))) →
  is_Some (generated_files env name fs !! pub_path name).
Proof.
  intros Hstem Hkey.
  assert (pub_path name = key_path name +:+ ".pub") as ->.
  { unfold pub_path, key_path. rewrite Hstem. reflexivity. }
  unfold generated_files. case_bool_decide as Hsome.
  - destruct Hkey as [Hnone|Hpub]; [|done].
    rewrite Hnone in Hsome. by destruct Hsome.
  - rewrite lookup_insert_eq. by eexists.
Qed.

Lemma rsplit_dot_pub x : rsplit_dot (x +:+ ".pub") = Some (x, "pub").
Proof.
  induction x as [|c x IH]; [reflexivity|].
  change (String c x +:+ ".pub") with (String c (x +:+ ".pub")).
  cbn [rsplit_dot]. by rewrite IH.
Qed.

(** For every name that ends in [.pub], the path with the suffix replaced
    by [.pub] is the path of the private key itself. *)
Lemma pub_path_pub_suffix name :
  pub_path (name +:+ ".pub") = key_path (name +:+ ".pub").
Proof.
  unfold pub_path, key_path, stem.
  change ("solvr_" +:+ name +:+ ".pub") with (("solvr_" +:+ name) +:+ ".pub").
  rewrite rsplit_dot_pub. reflexivity.
Qed.

(** A name that ends in [.pub]: replacing the suffix of the private key's
    path by [.pub] gives that same path, so when [generate_ssh_key] has
    just had the key pair written, the text it reads, strips and returns
    as the public key is the text of the private key file. *)
Theorem generate_ssh_key_pub_suffix env name w :
  files w !! key_path (name +:+ ".pub") = None →
  ∃ w',
    pub_path (name +:+ ".pub") = key_path (name +:+ ".pub")
    ∧ generate_ssh_key env (name +:+ ".pub") w
      = (Returned (key_path (name +:+ ".pub"),
                   strip (keygen env ("solvr-" +:+ name +:+ ".pub")).1), w')
    ∧ files w' !! key_path (name +:+ ".pub")
      = Some (keygen env ("solvr-" +:+ name +:+ ".pub")).1
    ∧ files w' !! (key_path (name +:+ ".pub") +:+ ".pub")
      = Some (keygen env ("solvr-" +:+ name +:+ ".pub")).2.
Proof.
  intros Hkey.
  pose proof (pub_path_pub_suffix name) as Hsame.
  destruct (generate_ssh_key_run env (name +:+ ".pub") (files w))
    as [line Hrun].
  specialize (Hrun w eq_refl).
  set (full := name +:+ ".pub") in *.
  assert (key_path full +:+ ".pub" ≠ key_path full) as Hne.
  { intros Heq. symmetry in Heq. by apply append_suffix_ne in Heq. }
  assert (generated_files env full (files w)
          = <[key_path full +:+ ".pub" := (keygen env ("solvr-" +:+ full)).2]>
              (<[key_path full := (keygen env ("solvr-" +:+ full)).1]>
                 (files w))) as Hfiles.
  { unfold generated_files. rewrite bool_decide_false; [done|].
    rewrite Hkey. by intros [? ?]. }
  rewrite Hfiles, Hsame in Hrun.
  rewrite lookup_insert_ne, lookup_insert_eq in Hrun by done.
  eexists. split; [done|]. split; [exact Hrun|]. flatten_state.
  by rewrite lookup_insert_eq, lookup_insert_ne, lookup_insert_eq.
Qed.

Lemma generate_ssh_key_pub_suffix_witness :
  ∃ w',
    pub_path ("backup" +:+ ".pub") = key_path ("backup" +:+ ".pub")
    ∧ generate_ssh_key some_env ("backup" +:+ ".pub") one_server
      = (Returned (key_path ("backup" +:+ ".pub"),
                   strip (keygen some_env
                            ("solvr-" +:+ "backup" +:+ ".pub")).1), w')
    ∧ files w' !! key_path ("backup" +:+ ".pub")
      = Some (keygen some_env ("solvr-" +:+ "backup" +:+ ".pub")).1
    ∧ files w' !! (key_path ("backup" +:+ ".pub") +:+ ".pub")
      = Some (keygen some_env ("solvr-" +:+ "backup" +:+ ".pub")).2.
Proof.
  apply (generate_ssh_key_pub_suffix some_env "backup" one_server).
  reflexivity.
Defined.

(** *** What provisioning leaves behind *)

(** Provisioning a name the provider has no server under, when the name
    has no file suffix and a private key that is already on disk has its
    public key beside it: the command returns; the provider has the new
    server under that name, with the identifier and address it assigned,
    labelled [managed-by=solvr-infra] and [name=<name>]; the key
    [solvr-<name>] is registered, the one that was registered before if
    there was one (whatever key is on disk), and the server is created
    with it; the metadata file of the instance can be loaded and records
    the name, the address, the identifier and the path of the private
    key, which is on disk; and the command has slept 45 seconds and five
    more after each of at most ten failed SSH probes. *)
Theorem provision_creates_server env a w :
  has_token env = true →
  servers w !! name a = None →
  stem ("solvr_" +:+ name a) = "solvr_" +:+ name a →
  (files w !! key_path (name a) = None
   ∨ is_Some (files w !! (key_path (name a) +:+ ".pub"))) →
  ∃ srv k md failed w',
    cmd_provision env a w = (Returned (), w')
    ∧ servers w' = <[name a := srv]> (servers w)
    ∧ server_name srv = name a
    ∧ (server_id srv, server_ip srv) = assign env (name a)
    ∧ managed srv = true
    ∧ server_labels srv !! "name" = Some (name a)
    ∧ ssh_keys w' !! ("solvr-" +:+ name a) = Some k
    ∧ server_ssh_keys srv = [key_name k]
    ∧ (∀ k0, ssh_keys w !! ("solvr-" +:+ name a) = Some k0 →
             k = k0 ∧ ssh_keys w' = ssh_keys w)
    ∧ load_metadata (name a) w' = (Returned (Some (JDict md)), w')
    ∧ md !! "name" = Some (JStr (name a))
    ∧ md !! "ip" = Some (JStr (server_ip srv))
    ∧ md !! "hetzner_id" = Some (JInt (server_id srv))
    ∧ md !! "ssh_key_path" = Some (JStr (key_path (name a)))
    ∧ is_Some (files w' !! key_path (name a))
    ∧ slept w' = slept w ++ 45 :: replicate failed 5
    ∧ (failed ≤ 10)%nat.
Proof.
  intros Htoken Hs Hstem Hkey.
  pose proof (cmd_provision_fresh env a w Htoken Hs) as Hrun.
  destruct (generated_files_pub env (name a) (files w) Hstem Hkey)
    as [text Hpub].
  rewrite Hpub in Hrun.
  destruct Hrun as (srv & k & md & failed & w' & Hrun & Hservers & Hkeys
    & Hfiles & Hdirs & Hslept & Hstdin & Hk & Hfailed & Hname & Hassign
    & Hmanaged & Hlabel & Hsshkeys & Hmd1 & Hmd2 & Hmd3 & Hmd4 & Hmd5).
  exists srv, k, md, failed, w'. split_and!; try done.
  - unfold managed. by rewrite Hmanaged, bool_decide_true.
  - by rewrite Hkeys, lookup_insert_eq.
  - intros k0 Hk0. rewrite Hkeys, Hk, Hk0. cbn. by rewrite insert_id.
  - unfold load_metadata, read. rewrite Hdirs, lookup_insert_eq. cbn.
    by rewrite lookup_insert_eq.
  - rewrite Hfiles. apply generated_files_key.
Qed.

Lemma provision_creates_server_witness :
  ∃ srv k md failed w',
    cmd_provision some_env ipfs_02_args one_server = (Returned (), w')
    ∧ servers w' = <[name ipfs_02_args := srv]> (servers one_server)
    ∧ server_name srv = name ipfs_02_args
    ∧ (server_id srv, server_ip srv) = assign some_env (name ipfs_02_args)
    ∧ managed srv = true
    ∧ server_labels srv !! "name" = Some (name ipfs_02_args)
    ∧ ssh_keys w' !! ("solvr-" +:+ name ipfs_02_args) = Some k
    ∧ server_ssh_keys srv = [key_name k]
    ∧ (∀ k0, ssh_keys one_server !! ("solvr-" +:+ name ipfs_02_args)
             = Some k0 →
             k = k0 ∧ ssh_keys w' = ssh_keys one_server)
    ∧ load_metadata (name ipfs_02_args) w' = (Returned (Some (JDict md)), w')
    ∧ md !! "name" = Some (JStr (name ipfs_02_args))
    ∧ md !! "ip" = Some (JStr (server_ip srv))
    ∧ md !! "hetzner_id" = Some (JInt (server_id srv))
    ∧ md !! "ssh_key_path" = Some (JStr (key_path (name ipfs_02_args)))
    ∧ is_Some (files w' !! key_path (name ipfs_02_args))
    ∧ slept w' = slept one_server ++ 45 :: replicate failed 5
    ∧ (failed ≤ 10)%nat.
Proof.
  apply (provision_creates_server some_env ipfs_02_args one_server).
  - reflexivity.
  - reflexivity.
  - reflexivity.
  - left. reflexivity.
Defined.

(** Provisioning when the public key is not where [generate_ssh_key] reads
    it: the private key is on disk without it, or the key pair has just
    been written but the name has a file suffix, so that the path with
    the suffix replaced by [.pub] is neither the private key nor the
    public key [ssh-keygen] wrote ([ipfs.01] is read from
    [solvr_ipfs.pub]).  The command raises [FileNotFoundError] for that
    path; no server is created, no key registered, no metadata written,
    and the key pair that was generated stays on disk. *)
Theorem provision_without_public_key env a w :
  has_token env = true →
  servers w !! name a = None →
  files w !! pub_path (name a) = None →
  (files w !! key_path (name a) = None →
   pub_path (name a) ≠ key_path (name a)
   ∧ pub_path (name a) ≠ key_path (name a) +:+ ".pub") →
  ∃ w',
    cmd_provision env a w
    = (Raised (FileNotFoundError (pub_path (name a))), w')
    ∧ servers w' = servers w
    ∧ ssh_keys w' = ssh_keys w
    ∧ instance_dirs w' = instance_dirs w
    ∧ slept w' = slept w
    ∧ is_Some (files w' !! key_path (name a))
    ∧ (files w !! key_path (name a) = None →
       files w' !! (key_path (name a) +:+ ".pub")
       = Some (keygen env ("solvr-" +:+ name a)).2).
Proof.
  intros Htoken Hs Hpub Hne.
  pose proof (cmd_provision_fresh env a w Htoken Hs) as Hrun.
  rewrite (generated_files_no_pub env (name a) (files w) Hpub Hne) in Hrun.
  destruct Hrun as (w' & Hrun & Hservers & Hkeys & Hfiles & Hdirs & Hslept
    & Hstdin).
  exists w'. split_and!; try done.
  - rewrite Hfiles. apply generated_files_key.
  - intros Hkey. rewrite Hfiles. unfold generated_files.
    rewrite bool_decide_false by (rewrite Hkey; by intros [? ?]).
    by rewrite lookup_insert_eq.
Qed.

Lemma provision_without_public_key_witness :
  ∃ w',
    cmd_provision some_env dotted_args one_server
    = (Raised (FileNotFoundError (pub_path (name dotted_args))), w')
    ∧ servers w' = servers one_server
    ∧ ssh_keys w' = ssh_keys one_server
    ∧ instance_dirs w' = instance_dirs one_server
    ∧ slept w' = slept one_server
    ∧ is_Some (files w' !! key_path (name dotted_args))
    ∧ (files one_server !! key_path (name dotted_args) = None →
       files w' !! (key_path (name dotted_args) +:+ ".pub")
       = Some (keygen some_env ("solvr-" +:+ name dotted_args)).2).
Proof.
  apply (provision_without_public_key some_env dotted_args one_server).
  - reflexivity.
  - reflexivity.
  - reflexivity.
  - intros _. split; discriminate.
Defined.

(** Whatever happens, [provision] removes and replaces nothing that was
    there: every server and every registered key the provider had is
    still there unchanged, every local file other than the public key
    beside the private key is unchanged, the other instances and the
    other files of this instance are unchanged, and nothing is read from
    standard input. *)
Theorem provision_keeps_what_exists env a w :
  ∃ out w',
    cmd_provision env a w = (out, w')
    ∧ servers w ⊆ servers w'
    ∧ ssh_keys w ⊆ ssh_keys w'
    ∧ (∀ p, p ≠ key_path (name a) +:+ ".pub" →
            is_Some (files w !! p) → files w' !! p = files w !! p)
    ∧ (∀ n, n ≠ name a → instance_dirs w' !! n = instance_dirs w !! n)
    ∧ (∀ d f, instance_dirs w !! name a = Some d → f ≠ "metadata.json" →
              ∃ d', instance_dirs w' !! name a = Some d' ∧ d' !! f = d !! f)
    ∧ stdin w' = stdin w.
Proof.
  assert (∀ out lines,
            cmd_provision env a w
            = (out, with_console (console w ++ lines) w) →
            ∃ out w',
              cmd_provision env a w = (out, w')
              ∧ servers w ⊆ servers w'
              ∧ ssh_keys w ⊆ ssh_keys w'
              ∧ (∀ p, p ≠ key_path (name a) +:+ ".pub" →
                      is_Some (files w !! p) → files w' !! p = files w !! p)
              ∧ (∀ n, n ≠ name a →
                      instance_dirs w' !! n = instance_dirs w !! n)
              ∧ (∀ d f, instance_dirs w !! name a = Some d →
                        f ≠ "metadata.json" →
                        ∃ d', instance_dirs w' !! name a = Some d'
                              ∧ d' !! f = d !! f)
              ∧ stdin w' = stdin w) as Hconsole.
  { intros out lines Hrun. eexists _, _. split; [exact Hrun|].
    flatten_state. split_and!; try done. intros d f Hd _. by exists d. }
  destruct (has_token env) eqn:Htoken; cycle 1.
  { eapply (Hconsole _ [_; _]). unfold cmd_provision.
    by rewrite (bind_exited _ _ _ _ _ (get_client_no_token env w Htoken)). }
  destruct (servers w !! name a) as [s|] eqn:Hs.
  { destruct (cmd_provision_existing env a w s Htoken Hs) as [lines Hrun].
    by eapply Hconsole. }
  pose proof (cmd_provision_fresh env a w Htoken Hs) as Hrun.
  destruct (generated_files env (name a) (files w) !! pub_path (name a))
    as [text|] eqn:Hpub.
  - destruct Hrun as (srv & k & md & failed & w' & Hrun & Hservers & Hkeys
      & Hfiles & Hdirs & Hslept & Hstdin & Hk & _).
    eexists _, w'. split; [exact Hrun|]. split_and!; try done.
    + rewrite Hservers. by apply insert_subseteq.
    + rewrite Hkeys, Hk.
      destruct (ssh_keys w !! ("solvr-" +:+ name a)) as [k0|] eqn:Hk0; cbn.
      * by rewrite insert_id.
      * by apply insert_subseteq.
    + intros p Hp Hsome. rewrite Hfiles. by apply generated_files_keep.
    + intros n Hn. rewrite Hdirs. by rewrite lookup_insert_ne.
    + intros d f Hd Hf. rewrite Hdirs, lookup_insert_eq, Hd. cbn.
      eexists. split; [done|]. by rewrite lookup_insert_ne.
  - destruct Hrun as (w' & Hrun & Hservers & Hkeys & Hfiles & Hdirs & Hslept
      & Hstdin).
    eexists _, w'. split; [exact Hrun|]. split_and!; try done.
    + by rewrite Hservers.
    + by rewrite Hkeys.
    + intros p Hp Hsome. rewrite Hfiles. by apply generated_files_keep.
    + intros n Hn. by rewrite Hdirs.
    + intros d f Hd Hf. rewrite Hdirs. by exists d.
Qed.

(** *** Destroying *)

Lemma cmd_destroy_deletes a w s (before : state) :
  servers before !! name a = Some s →
  servers w = servers before → instance_dirs w = instance_dirs before →
  ssh_keys w = ssh_keys before → files w = files before →
  ∃ w',
    (print ("🗑️  Destroying server '" +:+ name a +:+ "'...");;
     modify (λ w, with_servers (delete (name a) (servers w)) w);;
     dirs ← read instance_dirs;
     (if bool_decide (is_Some (dirs !! name a)) then
        modify (λ w, with_instance_dirs (delete (name a) (instance_dirs w)) w)
      else skip);;
     ssh_key ← read (λ w, ssh_keys w !! ("solvr-" +:+ name a));
     (match ssh_key with
      | Some k =>
          modify (λ w, with_ssh_keys
                    (delete ("solvr-" +:+ name a) (ssh_keys w)) w)
      | None => skip
      end);;
     print ("✓ Server '" +:+ name a +:+ "' destroyed")) w
    = (Returned (), w')
    ∧ servers w' = delete (name a) (servers before)
    ∧ instance_dirs w' = delete (name a) (instance_dirs before)
    ∧ ssh_keys w' = delete ("solvr-" +:+ name a) (ssh_keys before)
    ∧ files w' = files before
    ∧ stdin w' = stdin w
    ∧ slept w' = slept w.
Proof.
  intros Hs Hservers Hdirs Hkeys Hfiles. run_cmd.
  case_bool_decide as Hdir; run_cmd;
    (destruct (ssh_keys w !! ("solvr-" +:+ name a)) eqn:Hkey); run_cmd;
    (eexists; split; [reflexivity|]); flatten_state;
    rewrite ?Hservers, ?Hdirs, ?Hkeys, ?Hfiles in *;
    rewrite <- ?eq_None_not_Some in *;
    rewrite ?(delete_id (instance_dirs before)),
      ?(delete_id (ssh_keys before)) by done;
    done.
Qed.

Lemma cmd_destroy_yes env a w s :
  has_token env = true →
  servers w !! name a = Some s →
  yes a = true →
  ∃ w',
    cmd_destroy env a w = (Returned (), w')
    ∧ servers w' = delete (name a) (servers w)
    ∧ instance_dirs w' = delete (name a) (instance_dirs w)
    ∧ ssh_keys w' = delete ("solvr-" +:+ name a) (ssh_keys w)
    ∧ files w' = files w
    ∧ stdin w' = stdin w
    ∧ slept w' = slept w.
Proof.
  intros Htoken Hs Hyes. unfold cmd_destroy.
  destruct (get_client_token env w Htoken) as [t Ht].
  rewrite (bind_returned _ _ _ _ _ Ht). run_cmd. rewrite Hs, Hyes. run_cmd.
  by apply (cmd_destroy_deletes a w s w).
Qed.

(** [destroy --yes] after a [provision] that returned for a name the
    provider had no server under: both return, and the provider has the
    servers it had before.  The registered key [solvr-<name>] is gone even
    if it was registered before provisioning, and so is the whole
    directory of the instance, whatever it held before; the key pair stays
    on disk. *)
Theorem destroy_after_provision env a w :
  has_token env = true →
  servers w !! name a = None →
  yes a = true →
  (cmd_provision env a w).1 = Returned () →
  ∃ w1 w2,
    cmd_provision env a w = (Returned (), w1)
    ∧ cmd_destroy env a w1 = (Returned (), w2)
    ∧ servers w2 = servers w
    ∧ ssh_keys w2 = delete ("solvr-" +:+ name a) (ssh_keys w)
    ∧ instance_dirs w2 = delete (name a) (instance_dirs w)
    ∧ files w2 = files w1
    ∧ is_Some (files w2 !! key_path (name a)).
Proof.
  intros Htoken Hs Hyes Hreturned.
  pose proof (cmd_provision_fresh env a w Htoken Hs) as Hrun.
  destruct (generated_files env (name a) (files w) !! pub_path (name a))
    as [text|] eqn:Hpub; cycle 1.
  { destruct Hrun as (w' & Hrun & _). by rewrite Hrun in Hreturned. }
  destruct Hrun as (srv & k & md & failed & w1 & Hrun & Hservers & Hkeys
    & Hfiles & Hdirs & _).
  assert (servers w1 !! name a = Some srv) as Hs1.
  { by rewrite Hservers, lookup_insert_eq. }
  destruct (cmd_destroy_yes env a w1 srv Htoken Hs1 Hyes)
    as (w2 & Hrun2 & Hservers2 & Hdirs2 & Hkeys2 & Hfiles2 & _).
  exists w1, w2. split_and!; try done.
  - rewrite Hservers2, Hservers. by apply delete_insert_id.
  - rewrite Hkeys2, Hkeys. by rewrite delete_insert_eq.
  - rewrite Hdirs2, Hdirs. by rewrite delete_insert_eq.
  - rewrite Hfiles2, Hfiles. apply generated_files_key.
Qed.

Lemma destroy_after_provision_witness :
  ∃ w1 w2,
    cmd_provision some_env ipfs_02_args one_server = (Returned (), w1)
    ∧ cmd_destroy some_env ipfs_02_args w1 = (Returned (), w2)
    ∧ servers w2 = servers one_server
    ∧ ssh_keys w2
      = delete ("solvr-" +:+ name ipfs_02_args) (ssh_keys one_server)
    ∧ instance_dirs w2
      = delete (name ipfs_02_args) (instance_dirs one_server)
    ∧ files w2 = files w1
    ∧ is_Some (files w2 !! key_path (name ipfs_02_args)).
Proof.
  apply (destroy_after_provision some_env ipfs_02_args one_server).
  - reflexivity.
  - reflexivity.
  - reflexivity.
  - vm_compute. reflexivity.
Defined.

(** [destroy] deletes nothing without a server to delete or without a
    confirmation: when the provider has no server under the name, or when
    [--yes] is not given and the next line of standard input, if there is
    one, is not [y] or [Y] as it stands, the servers, the registered
    keys, the local files and the instance directories are as before.
    With a token, the command then returns, except that it raises
    [EOFError] when it asks and standard input is at its end. *)
Theorem destroy_needs_confirmation env a w :
  servers w !! name a = None
  ∨ (yes a = false
     ∧ ∀ line rest, stdin w = line :: rest → lower line ≠ "y") →
  ∃ out w',
    cmd_destroy env a w = (out, w')
    ∧ same_resources w w'
    ∧ (has_token env = true →
       out = match servers w !! name a, stdin w with
             | Some _, [] => Raised EOFError
             | _, _ => Returned ()
             end).
Proof.
  intros Hcase. unfold cmd_destroy.
  destruct (has_token env) eqn:Htoken; cycle 1.
  { rewrite (bind_exited _ _ _ _ _ (get_client_no_token env w Htoken)).
    eexists _, _. split; [reflexivity|]. by split. }
  destruct (get_client_token env w Htoken) as [t Ht].
  rewrite (bind_returned _ _ _ _ _ Ht). run_cmd.
  destruct (servers w !! name a) as [s|] eqn:Hs.
  - destruct Hcase as [|[Hyes Hanswer]]; [done|]. rewrite Hyes.
    unfold input. run_cmd. destruct (stdin w) as [|line rest] eqn:Hstdin.
    + unfold raise. run_cmd. eexists _, _. split; [reflexivity|]. by split.
    + run_cmd. specialize (Hanswer line rest eq_refl).
      apply String.eqb_neq in Hanswer. rewrite Hanswer. run_cmd.
      eexists _, _. split; [reflexivity|]. by split.
  - eexists _, _. split; [reflexivity|]. split; [done|].
    intros _. by destruct (stdin w).
Qed.

Lemma destroy_needs_confirmation_witness :
  ∃ out w',
    cmd_destroy some_env (ipfs_01_args false)
      (with_stdin ["yes"] one_server) = (out, w')
    ∧ same_resources (with_stdin ["yes"] one_server) w'
    ∧ (has_token some_env = true →
       out = match servers (with_stdin ["yes"] one_server)
                   !! name (ipfs_01_args false),
                   stdin (with_stdin ["yes"] one_server) with
             | Some _, [] => Raised EOFError
             | _, _ => Returned ()
             end).
Proof.
  apply (destroy_needs_confirmation some_env (ipfs_01_args false)
           (with_stdin ["yes"] one_server)).
  right. split; [reflexivity|]. intros line rest [= <- <-]. discriminate.
Defined.

(** *** Commands that only print *)

Section ReadOnly.

Context (env : environment).
Context (status_of datacenter_of : Server → string).
Context (listing : gmap string Server → list Server).
Context (show_labels : gmap string string → string).
Context (show : json → string).
Context (help : list string).

Lemma same_but_console_print w lines :
  same_but_console w (with_console (console w ++ lines) w).
Proof. reflexivity. Qed.

Lemma print_all_run lines w :
  print_all lines w = (Returned (), with_console (console w ++ lines) w).
Proof.
  revert w. induction lines as [|line lines IH]; intros w; cbn [print_all].
  - unfold skip, mret, cmd_ret. apply pair_equal_spec. split; [done|].
    apply state_ext; flatten_state; try done. by rewrite app_nil_r.
  - run_cmd. rewrite IH. apply pair_equal_spec. split; [done|].
    apply state_ext; flatten_state; try done. by rewrite <- app_assoc.
Qed.

Lemma cmd_list_prints w :
  ∃ out lines,
    cmd_list env status_of listing w
    = (out, with_console (console w ++ lines) w).
Proof.
  unfold cmd_list. destruct (has_token env) eqn:Htoken; cycle 1.
  { rewrite (bind_exited _ _ _ _ _ (get_client_no_token env w Htoken)).
    by eexists _, _. }
  destruct (get_client_token env w Htoken) as [t Ht].
  rewrite (bind_returned _ _ _ _ _ Ht). run_cmd.
  destruct (get_all_managed listing w) as [|s found]; run_cmd.
  - by eexists _, [_].
  - rewrite print_all_run. flatten_state. eexists _, (_ :: _ :: _).
    apply pair_equal_spec. split; [done|].
    apply state_ext; flatten_state; try done. by rewrite <- !app_assoc.
Qed.

Lemma cmd_status_prints a w :
  ∃ out lines,
    cmd_status env status_of datacenter_of show_labels show a w
    = (out, with_console (console w ++ lines) w).
Proof.
  unfold cmd_status. destruct (has_token env) eqn:Htoken; cycle 1.
  { rewrite (bind_exited _ _ _ _ _ (get_client_no_token env w Htoken)).
    by eexists _, _. }
  destruct (get_client_token env w Htoken) as [t Ht].
  rewrite (bind_returned _ _ _ _ _ Ht). run_cmd.
  destruct (servers w !! name a) as [s|]; run_cmd; [|by eexists _, [_]].
  unfold load_metadata. run_cmd.
  destruct (instance_dirs w !! name a ≫= _) as [meta|]; run_cmd.
  - destruct (truthy meta); run_cmd.
    + unfold show_field.
      destruct (get_default meta "created_at" _) as [created|e];
        [|unfold raise; run_cmd; rewrite <- !app_assoc; by eexists _, _].
      run_cmd.
      destruct (get_default meta "ssh_key_path" _) as [key|e];
        unfold raise; run_cmd; rewrite <- !app_assoc; by eexists _, _.
    + rewrite <- !app_assoc. by eexists _, _.
  - rewrite <- !app_assoc. by eexists _, _.
Qed.

(** Without a token (none in the environment, none or a blank one from the
    command line tool) every command prints the same two lines and leaves
    with exit status 1, before it has looked at the account, at a file or
    at standard input. *)
Theorem no_token_exits a w :
  has_token env = false →
  cmd_provision env a w = refused w
  ∧ cmd_destroy env a w = refused w
  ∧ cmd_list env status_of listing w = refused w
  ∧ cmd_status env status_of datacenter_of show_labels show a w = refused w.
Proof.
  intros Htoken.
  pose proof (get_client_no_token env w Htoken) as Hexit.
  unfold cmd_provision, cmd_destroy, cmd_list, cmd_status, refused.
  by rewrite !(bind_exited _ _ _ _ _ Hexit).
Qed.

(** [main] changes something only through [--destroy] or [--name], and
    only when neither [--list] nor [--status] is given with them: with
    [--list], with a non-empty [--status], or with neither [--destroy]
    nor [--name] (where it prints the help), the state afterwards differs
    from the one before in the console at most. *)
Theorem main_only_prints ns w :
  ns_list ns = true
  ∨ is_Some (given (ns_status ns))
  ∨ (given (ns_destroy ns) = None ∧ given (ns_name ns) = None) →
  ∃ out w',
    main env status_of datacenter_of listing show_labels show help ns w
    = (out, w')
    ∧ same_but_console w w'.
Proof.
  intros Hflags. unfold main.
  destruct (ns_list ns).
  { destruct (cmd_list_prints w) as (out & lines & ->). by eexists _, _. }
  destruct (given (ns_status ns)) as [name|].
  { destruct (cmd_status_prints (args_for ns name) w) as (out & lines & ->).
    by eexists _, _. }
  destruct Hflags as [|[[? ?]|[-> ->]]]; [done..|].
  rewrite print_all_run. by eexists _, _.
Qed.

End ReadOnly.

Lemma no_token_exits_witness :
  cmd_provision no_token_env (ipfs_01_args true) one_server
  = refused one_server
  ∧ cmd_destroy no_token_env (ipfs_01_args true) one_server
    = refused one_server
  ∧ cmd_list no_token_env server_type (λ m, (map_to_list m).*2) one_server
    = refused one_server
  ∧ cmd_status no_token_env server_type server_location (λ _, "{}")
      (λ _, "") (ipfs_01_args true) one_server = refused one_server.
Proof.
  apply (no_token_exits no_token_env server_type server_location
           (λ m, (map_to_list m).*2) (λ _, "{}") (λ _, "")
           (ipfs_01_args true) one_server).
  reflexivity.
Defined.

Lemma main_only_prints_witness :
  ∃ out w',
    main some_env server_type server_location (λ m, (map_to_list m).*2)
      (λ _, "{}") (λ _, "") [] list_and_destroy one_server
    = (out, w')
    ∧ same_but_console one_server w'.
Proof.
  apply (main_only_prints some_env server_type server_location
           (λ m, (map_to_list m).*2) (λ _, "{}") (λ _, "") []
           list_and_destroy one_server).
  left. reflexivity.
Defined.

End ProvisionFacts.
